(** * FLMR retrieval example: input composition, retrieval orchestration
      and recall evaluation

    A shallow embedding of [examples/example_use_flmr.py]:
    - [prepare_inputs]: the delimited text sequence of a sample and the
      padding or truncation of its region descriptors;
    - [tokenize_inputs]: the crop list of a sample (primary image, then one
      crop per region descriptor, small boxes enlarged);
    - [encode_and_search_batch]: the lookup of every query of a batch in the
      searcher's ranking and the per-query Recall@K.

    Python values are modelled as follows.  An [int] is a [Z]; a [str] is a
    [string] of ASCII characters; a [float] is the rational it denotes (the
    source only compares floats and adds or subtracts 2.5, which is taken
    here as exact arithmetic); a [list] is a [list]; a [dict] is a [gmap];
    a raised exception is the [Raise] case of [result].  The enlargement
    of small crops is also read on IEEE doubles and on rationals with an
    explicit rounding ([sanitize_in]), where its additions round. *)

From Stdlib Require Import PrimFloat Uint63 SpecFloat FloatOps.
From Stdlib Require Import ZArith QArith Qround Qpower Lqa Lia.
From Stdlib Require Import Ascii String.
From stdpp Require Import base option list gmap strings.

Local Open Scope Z_scope.

(** ** Exceptions and the error monad *)

Inductive exn : Type :=
| KeyError (key : string)
| IndexError
| ValueError
| OSError
| RuntimeError
| DecompressionBombError.

Inductive result (A : Type) : Type :=
| Ok (a : A)
| Raise (e : exn).

Arguments Ok {A} a.
Arguments Raise {A} e.

#[global] Instance result_ret : MRet result := fun A a => Ok a.

#[global] Instance result_bind : MBind result := fun A B k r =>
  match r with
  | Ok a => k a
  | Raise e => Raise e
  end.

Definition of_option {A : Type} (e : exn) (o : option A) : result A :=
  match o with
  | Some a => Ok a
  | None => Raise e
  end.

Definition is_Ok {A : Type} (r : result A) : Prop := exists a, r = Ok a.

(** [[f(x) for x in l]] where [f] may raise: the first exception wins. *)
Fixpoint map_result {A B : Type} (f : A -> result B) (l : list A) : result (list B) :=
  match l with
  | [] => Ok []
  | x :: l' => y ← f x; ys ← map_result f l'; Ok (y :: ys)
  end.

(** A [for] loop threading a state, whose body may raise. *)
Fixpoint for_each {A S : Type} (body : S -> A -> result S) (l : list A) (s : S) : result S :=
  match l with
  | [] => Ok s
  | x :: l' => s' ← body s x; for_each body l' s'
  end.

(** ** Python sequence operations *)

Module Py.

(** [l[:k]]: a negative [k] counts from the end. *)
Definition slice_to {A : Type} (l : list A) (k : Z) : list A :=
  if 0 <=? k then take (Z.to_nat k) l
  else take (Z.to_nat (Z.of_nat (length l) + k)) l.

(** [l[i]]: a negative [i] counts from the end; out of range raises. *)
Definition index {A : Type} (l : list A) (i : Z) : result A :=
  let n := Z.of_nat (length l) in
  if (0 <=? i) && (i <? n) then of_option IndexError (l !! Z.to_nat i)
  else if (- n <=? i) && (i <? 0) then of_option IndexError (l !! Z.to_nat (n + i))
  else Raise IndexError.

(** [[x] * k]: empty when [k <= 0]. *)
Definition repeat {A : Type} (x : A) (k : Z) : list A := replicate (Z.to_nat k) x.

(** [max(l)] on integers: raises on the empty list. *)
Definition max_list (l : list Z) : result Z :=
  match l with
  | [] => Raise ValueError
  | x :: l' => Ok (fold_left Z.max l' x)
  end.

(** [zip(a, b)] stops at the shorter list. *)
Fixpoint zip {A B : Type} (a : list A) (b : list B) : list (A * B) :=
  match a, b with
  | x :: a', y :: b' => (x, y) :: zip a' b'
  | _, _ => []
  end.

End Py.

(** ** Python string operations (ASCII) *)

Module Str.

Local Open Scope string_scope.

Definition code (c : ascii) : nat := nat_of_ascii c.

(** [str.lower] on one character. *)
Definition lower_char (c : ascii) : ascii :=
  let n := code c in
  if (65 <=? n)%nat && (n <=? 90)%nat then ascii_of_nat (n + 32) else c.

Fixpoint lower (s : string) : string :=
  match s with
  | EmptyString => EmptyString
  | String c s' => String (lower_char c) (lower s')
  end.

(** The characters [str.strip] removes. *)
Definition is_space (c : ascii) : bool :=
  let n := code c in
  ((9 <=? n)%nat && (n <=? 13)%nat) || ((28 <=? n)%nat && (n <=? 32)%nat).

Fixpoint lstrip (s : string) : string :=
  match s with
  | EmptyString => EmptyString
  | String c s' => if is_space c then lstrip s' else s
  end.

Fixpoint rstrip (s : string) : string :=
  match s with
  | EmptyString => EmptyString
  | String c s' =>
      match rstrip s' with
      | EmptyString => if is_space c then EmptyString else String c EmptyString
      | r => String c r
      end
  end.

Definition strip (s : string) : string := rstrip (lstrip s).

(** [s.replace(a, b)] for one-character [a] and [b]. *)
Fixpoint replace_char (a b : ascii) (s : string) : string :=
  match s with
  | EmptyString => EmptyString
  | String c s' => String (if Ascii.eqb c a then b else c) (replace_char a b s')
  end.

(** [sub in s]. *)
Fixpoint contains (sub s : string) : bool :=
  String.prefix sub s ||
  match s with
  | EmptyString => false
  | String _ s' => contains sub s'
  end.

(** [sep.join(l)]. *)
Fixpoint join (sep : string) (l : list string) : string :=
  match l with
  | [] => EmptyString
  | [x] => x
  | x :: l' => x ++ sep ++ join sep l'
  end.

(** [s.split(sep)] for a non-empty [sep]: [skip] counts the characters of
    a matched separator that are still to be dropped, [cur] is the piece
    being read. *)
Fixpoint split_go (sep : string) (skip : nat) (cur : string) (s : string) : list string :=
  match skip with
  | S k =>
      match s with
      | EmptyString => [cur]
      | String _ s' => split_go sep k cur s'
      end
  | O =>
      match s with
      | EmptyString => [cur]
      | String c s' =>
          if String.prefix sep s
          then cur :: split_go sep (String.length sep - 1) EmptyString s'
          else split_go sep O (cur ++ String c EmptyString) s'
      end
  end.

Definition split (sep s : string) : list string := split_go sep O EmptyString s.

End Str.

(** ** Data model *)

(** A detected object: [obj["class"]], [obj["attributes"]] and
    [obj["attribute_scores"]]. *)
Record Obj : Type := {
  obj_class : string;
  attributes : list string;
  attribute_scores : list Q;
}.

(** An OCR annotation: a dict with the key ["description"]. *)
Record Annotation : Type := { description : string }.

(** [sample.img_caption] is a plain string or a dict with the key ["caption"]. *)
Inductive Caption : Type :=
| CaptionStr (text : string)
| CaptionDict (caption : string).

Record Sample : Type := {
  question : string;
  img_path : string;
  objects : list Obj;
  img_ocr : list Annotation;
  img_caption : Caption;
  ROIs : list string;
  text_sequence : option string;
}.

(** A crop box [(xmin, ymin, xmax, ymax)]. *)
Record Box : Type := {
  xmin : Q;
  ymin : Q;
  xmax : Q;
  ymax : Q;
}.

(** An entry of a ranking: [(passage_id, rank, score)]; [doc[0]] is [pid]. *)
Record Doc : Type := {
  pid : Z;
  rank : Z;
  score : Q;
}.

(** ** External collaborators *)

(** PIL and the builtin [float]: [Image_open] is
    [Image.open(path).convert("RGB")] and [float] the parser of a decimal
    literal, [None] when they raise.  [img.crop(box)] raises the exception
    [Image_crop_raises] gives, if any, and is [Image_crop] otherwise (Pillow
    raises [ValueError] on a box whose right side is left of its left side
    or whose lower side is above its upper side, and
    [DecompressionBombError] on a box of too many pixels). *)
Class Platform : Type := {
  Image : Type;
  Image_open : string -> option Image;
  Image_size : Image -> Z * Z;
  Image_crop_raises : Image -> Box -> option exn;
  Image_crop : Image -> Box -> Image;
  float : string -> option Q;
}.

(** The query encoder and the searcher; the searcher's answer is the dict
    of [ranking.todict()]. *)
Class Retriever : Type := {
  Enc : Type;
  Emb : Type;
  flmr_query : Enc -> Emb;
  search_custom_collection : gmap string string -> Emb -> Z -> gmap string (list Doc);
}.

Record Batch `{Retriever} : Type := {
  inputs : Enc;
  question_id : list string;
  batch_question : list string;
  answers : list (list string);
}.

(** ** [prepare_inputs]: the text sequence *)

Definition Qltb (x y : Q) : bool := negb (Qle_bool y x).

Definition attribute_max : Z := 3.
Definition attribute_thres : Q := 0.05.
Definition ocr : Z := 1.

(** The inner loop over [zip(obj["attributes"], obj["attribute_scores"])]. *)
Definition suitable_step (suitable : list string) (p : string * Q) : list string :=
  let '(attribute, att_score) := p in
  if Qltb attribute_thres att_score && (Z.of_nat (length suitable) <? attribute_max)
  then suitable ++ [attribute]
  else suitable.

Definition suitable_attributes (obj : Obj) : list string :=
  fold_left suitable_step (Py.zip (attributes obj) (attribute_scores obj)) [].

(** The body of [for obj in sample.objects]. *)
Definition object_step (vision_sentences : list string) (obj : Obj) : list string :=
  let vision_sentences :=
    if 0 <? attribute_max then vision_sentences ++ suitable_attributes obj
    else vision_sentences in
  (vision_sentences ++ [obj_class obj]) ++ ["<SOV>"%string].

Definition mem (x : string) (l : list string) : bool := existsb (String.eqb x) l.

(** The body of [for text_annoation in text_annotations]. *)
Definition ocr_step (filtered_descriptions : list string) (a : Annotation) : list string :=
  let d := Str.strip (description a) in
  let d := Str.replace_char "010"%char " "%char d in
  if mem d filtered_descriptions then filtered_descriptions
  else filtered_descriptions ++ [d].

Definition filtered_descriptions (text_annotations : list Annotation) : list string :=
  fold_left ocr_step text_annotations [].

Definition vision_sentences (sample : Sample) : list string :=
  let vs := ["<BOV>"%string] in
  let vs := fold_left object_step (objects sample) vs in
  let vs := if 0 <? ocr then vs ++ filtered_descriptions (img_ocr sample) else vs in
  vs ++ ["<EOV>"%string].

Definition caption_text (c : Caption) : string :=
  match c with
  | CaptionDict caption => caption
  | CaptionStr text => text
  end.

Definition compose_text (sample : Sample) : string :=
  let text := Str.join " " (["<BOQ>"%string] ++ [question sample] ++ ["<EOQ>"%string]) in
  let text := text +:+ " " +:+ Str.join " " (vision_sentences sample) in
  text +:+ " " +:+
  Str.join " " (["<BOC>"%string] ++ [caption_text (img_caption sample)] ++ ["<EOC>"%string]).

(** ** [prepare_inputs]: the region descriptors *)

Definition pad_ROIs (rois : list string) (num_ROIs : Z) : result (list string) :=
  rois ← (if Z.of_nat (length rois) <? num_ROIs
          then last_roi ← Py.index rois (-1);
               Ok (rois ++ Py.repeat last_roi (num_ROIs - Z.of_nat (length rois)))
          else Ok rois);
  Ok (Py.slice_to rois num_ROIs).

Definition prepare_inputs (sample : Sample) (num_ROIs : Z) : result Sample :=
  let text := compose_text sample in
  rois ← pad_ROIs (ROIs sample) num_ROIs;
  Ok {| question := question sample; img_path := img_path sample;
        objects := objects sample; img_ocr := img_ocr sample;
        img_caption := img_caption sample; ROIs := rois;
        text_sequence := Some text |}.

(** ** [tokenize_inputs]: the crop list *)

(** Python's [max(a, b)] and [min(a, b)]: the second argument wins only
    when it is strictly greater (smaller). *)
Definition fmax (a b : Q) : Q := if Qltb a b then b else a.
Definition fmin (a b : Q) : Q := if Qltb b a then b else a.

(** The enlargement of a small crop, on exact numbers; [size] is
    [img.size].  [sanitize_in] below is the same code over any arithmetic,
    the doubles among them. *)
Definition sanitize (crop : Box) (size : Z * Z) : Box :=
  let '(x0, y0, x1, y1) := (xmin crop, ymin crop, xmax crop, ymax crop) in
  if Qltb (x1 - x0) 5 && Qltb (y1 - y0) 5 then
    let '(x0', x1') :=
      if Qltb (x1 - x0) 5
      then (fmax 0 (x0 - 2.5), fmin (inject_Z (fst size)) (x1 + 2.5))
      else (x0, x1) in
    let '(y0', y1') :=
      if Qltb (y1 - y0) 5
      then (fmax 0 (y0 - 2.5), fmin (inject_Z (snd size)) (y1 + 2.5))
      else (y0, y1) in
    {| xmin := x0'; ymin := y0'; xmax := x1'; ymax := y1' |}
  else crop.

(** [img.crop(crop)]. *)
Definition crop_image `{Platform} (img : Image) (crop : Box) : result Image :=
  match Image_crop_raises img crop with
  | Some e => Raise e
  | None => Ok (Image_crop img crop)
  end.

(** The body of [for ROI in ROIs]: parse
    [{img_path}|||{class}_{xmin}_{ymin}_{xmax}_{ymax}], open the image and
    crop it. *)
Definition crop_of_ROI `{Platform} (ROI : string) : result Image :=
  match Str.split "|||" ROI with
  | [roi_path; remaining] =>
      img ← of_option OSError (Image_open roi_path);
      match Str.split "_" remaining with
      | [class_name; x0; y0; x1; y1] =>
          x0 ← of_option ValueError (float x0);
          y0 ← of_option ValueError (float y0);
          x1 ← of_option ValueError (float x1);
          y1 ← of_option ValueError (float y1);
          let crop := {| xmin := x0; ymin := y0; xmax := x1; ymax := y1 |} in
          crop_image img (sanitize crop (Image_size img))
      | _ => Raise ValueError
      end
  | _ => Raise ValueError
  end.

(** [all_images] of one example: the primary image, then the crops. *)
Definition all_images `{Platform} (path : string) (rois : list string) : result (list Image) :=
  image ← of_option OSError (Image_open path);
  for_each (fun imgs ROI => c ← crop_of_ROI ROI; Ok (imgs ++ [c])) rois [image].

(** The image processor and [torch.stack], either of which may raise:
    [image_processor(all_images, return_tensors="pt").pixel_values] and
    [torch.stack(pixel_values, dim=0)]. *)
Class Tensors (P : Platform) : Type := {
  Pixels : Type;
  image_processor : list Image -> result Pixels;
  torch_stack : list Pixels -> result Pixels;
}.

(** The pixel values of a batch: per example the crop list, encoded by the
    image processor; the encodings stacked. *)
Definition tokenize_images `{P : Platform} `{!Tensors P} (paths : list string)
    (roiss : list (list string)) : result Pixels :=
  pixel_values ← map_result (fun '(path, rois) => images ← all_images path rois;
                                                  image_processor images)
                            (Py.zip paths roiss);
  torch_stack pixel_values.

(** [compose(sample, num_ROIs).crops]: [prepare_inputs], then the crop list
    [tokenize_inputs] builds for the prepared sample. *)
Definition compose_crops `{Platform} (sample : Sample) (num_ROIs : Z) : result (list Image) :=
  sample' ← prepare_inputs sample num_ROIs;
  all_images (img_path sample') (ROIs sample').

(** ** [encode_and_search_batch]: hits and Recall@K *)

(** The loop [for answer in answers] setting [found]. *)
Definition found_step (retrieved_doc_text : string) (found : bool) (answer : string) : bool :=
  if Str.contains (Str.lower (Str.strip answer)) (Str.lower retrieved_doc_text)
  then true else found.

Definition hit (answers : list string) (retrieved_doc_text : string) : Z :=
  if fold_left (found_step retrieved_doc_text) answers false then 1 else 0.

Definition hit_list (answers : list string) (retrieved_doc_texts : list string) : list Z :=
  fold_left (fun hits text => hits ++ [hit answers text]) retrieved_doc_texts [].

(** [np.max(np.array(l))]: raises on an empty array. *)
Definition np_max (l : list Z) : result Z := Py.max_list l.

(** [float(np.max(np.array(hit_list[:K])))]; the float of 0 or 1 is kept
    as the integer. *)
Definition recall_at (hits : list Z) (K : Z) : result Z := np_max (Py.slice_to hits K).

(** [recall_dict[f"Recall@{K}"].append(recall)] on a [defaultdict(list)];
    the key [Recall@K] is represented by [K]. *)
Definition append_recall (recall_dict : gmap Z (list Z)) (K recall : Z) : gmap Z (list Z) :=
  <[K := default [] (recall_dict !! K) ++ [recall]]> recall_dict.

(** The hit list of one query. *)
Definition query_hits (passage_contents : list string) (ranking_dict : gmap string (list Doc))
    (qid : string) (gold : list string) : result (list Z) :=
  retrieved_docs ← of_option (KeyError qid) (ranking_dict !! qid);
  let retrieved_docs := map pid retrieved_docs in
  retrieved_doc_texts ← map_result (Py.index passage_contents) retrieved_docs;
  Ok (hit_list gold retrieved_doc_texts).

(** The body of [for question_id, answers in zip(...)]. *)
Definition query_step (passage_contents : list string) (ranking_dict : gmap string (list Doc))
    (Ks : list Z) (recall_dict : gmap Z (list Z)) (q : string * list string)
  : result (gmap Z (list Z)) :=
  let '(qid, gold) := q in
  hits ← query_hits passage_contents ranking_dict qid gold;
  for_each (fun rd K => recall ← recall_at hits K; Ok (append_recall rd K recall)) Ks recall_dict.

(** The recall part of [encode_and_search_batch], from [ranking_dict] on. *)
Definition process_ranking (passage_contents : list string)
    (ranking_dict : gmap string (list Doc)) (qids : list string)
    (golds : list (list string)) (Ks : list Z) : result (gmap Z (list Z)) :=
  for_each (query_step passage_contents ranking_dict Ks) (Py.zip qids golds) ∅.

(** The dict [custom_quries] of [question_id -> question]: a later
    duplicate of an id overwrites an earlier one. *)
Definition custom_quries `{Retriever} (batch : Batch) : gmap string string :=
  fold_left (fun d '(qid, q) => <[qid := q]> d)
            (Py.zip (question_id batch) (batch_question batch)) ∅.

(** [ranking.todict()] for the batch, [k] documents asked for. *)
Definition batch_ranking `{Retriever} (batch : Batch) (k : Z) : gmap string (list Doc) :=
  let query_embeddings := flmr_query (inputs batch) in
  search_custom_collection (custom_quries batch) query_embeddings k.

Definition encode_and_search_batch `{Retriever} (passage_contents : list string)
    (batch : Batch) (Ks : list Z) : result (gmap Z (list Z)) :=
  k ← Py.max_list Ks;
  let ranking_dict := batch_ranking batch k in
  process_ranking passage_contents ranking_dict (question_id batch) (answers batch) Ks.

(** The passages as indexed and searched: each wrapped in its markers. *)
Definition wrap_passages (passages : list string) : list string :=
  map (fun passage => "<BOK> " +:+ passage +:+ " <EOK>") passages.

(** ** The properties the specification names *)

Module Spec.

(** Attribute selection: keep the attributes whose score exceeds the
    threshold, in their order, at most [attribute_max] of them. *)
Definition select_attributes (attrs : list string) (scores : list Q) : list string :=
  take (Z.to_nat attribute_max)
       (map fst (List.filter (fun p => Qltb attribute_thres (snd p)) (Py.zip attrs scores))).

(** Duplicates removed, the first occurrence of each string kept in place. *)
Fixpoint unique_first (l : list string) : list string :=
  match l with
  | [] => []
  | x :: l' => x :: List.filter (fun y => negb (String.eqb x y)) (unique_first l')
  end.

(** An OCR description as it enters the vision segment. *)
Definition normalise (a : Annotation) : string :=
  Str.replace_char "010"%char " "%char (Str.strip (description a)).

(** The words of one object: its selected attributes, its class, the
    separator. *)
Definition object_words (obj : Obj) : list string :=
  select_attributes (attributes obj) (attribute_scores obj) ++ [obj_class obj; "<SOV>"%string].


(** The words of the vision segment: the objects, then the distinct OCR
    descriptions. *)
Definition vision_words (sample : Sample) : list string :=
  concat (map object_words (objects sample))
  ++ unique_first (map normalise (img_ocr sample)).


Definition substring (sub s : string) : Prop :=
  exists pre post, s = pre +:+ sub +:+ post.

(** A passage is a hit when some gold answer, trimmed and lowered, occurs
    in the lowered passage. *)
Definition is_hit (gold : list string) (text : string) : Prop :=
  exists answer, answer ∈ gold /\ substring (Str.lower (Str.strip answer)) (Str.lower text).

Definition is_hitb (gold : list string) (text : string) : bool :=
  existsb (fun answer => Str.contains (Str.lower (Str.strip answer)) (Str.lower text)) gold.

(** Binary recall: 1 when one of the first [K] passages is a hit. *)
Definition recall (gold : list string) (texts : list string) (K : Z) : Z :=
  if existsb (is_hitb gold) (take (Z.to_nat K) texts) then 1 else 0.

(** All coordinates of a box are non-negative and within the image. *)
Definition valid_box (b : Box) (size : Z * Z) : Prop :=
  let w := inject_Z (fst size) in
  let h := inject_Z (snd size) in
  (0 <= xmin b <= w /\ 0 <= xmax b <= w /\ 0 <= ymin b <= h /\ 0 <= ymax b <= h)%Q.

(** Boxes with equal coordinates (as rationals). *)
Definition box_eq (a b : Box) : Prop :=
  (xmin a == xmin b /\ ymin a == ymin b /\ xmax a == xmax b /\ ymax a == ymax b)%Q.

Definition width (b : Box) : Q := xmax b - xmin b.
Definition height (b : Box) : Q := ymax b - ymin b.

End Spec.

(** ** A reference platform, to run the model on concrete samples *)

(** An image is known by its file and the box it was cropped to. *)
Record SymImage : Type := {
  src : string;
  region : option Box;
}.

Definition digit (c : ascii) : option Z :=
  let n := nat_of_ascii c in
  if (48 <=? n)%nat && (n <=? 57)%nat then Some (Z.of_nat (n - 48)) else None.

(** Unsigned decimals [ddd] and [ddd.ddd]. *)
Fixpoint decimal_go (s : string) (num : Z) (den : positive) (dot any : bool) : option Q :=
  match s with
  | EmptyString => if any then Some (num # den) else None
  | String c s' =>
      if Ascii.eqb c "."%char then
        if dot then None else decimal_go s' num den true any
      else
        match digit c with
        | Some d => decimal_go s' (num * 10 + d) (if dot then den * 10 else den)%positive dot true
        | None => None
        end
  end.

Definition decimal (s : string) : option Q := decimal_go s 0 1%positive false false.

#[local] Instance sym_platform : Platform := {|
  Image := SymImage;
  Image_open path :=
    match path with
    | EmptyString => None
    | _ => Some {| src := path; region := None |}
    end;
  Image_size _ := (640, 480);
  Image_crop_raises _ box :=
    if Qltb (xmax box) (xmin box) || Qltb (ymax box) (ymin box) then Some ValueError
    else None;
  Image_crop img box := {| src := src img; region := Some box |};
  float := decimal;
|}.

(** A processor that keeps the images as they are, and a stack that wants
    lists of one length. *)
#[local] Instance sym_tensors : Tensors sym_platform := {|
  Pixels := list (list SymImage);
  image_processor images := Ok [images];
  torch_stack pixel_values :=
    match concat pixel_values with
    | [] => Raise RuntimeError
    | first :: others =>
        if forallb (fun images => Nat.eqb (length images) (length first)) others
        then Ok (first :: others)
        else Raise RuntimeError
    end;
|}.

(** A searcher that answers from a table, cut to the [k] best entries. *)
#[local] Instance table_retriever (table : gmap string (list Doc)) : Retriever := {|
  Enc := unit;
  Emb := unit;
  flmr_query _ := tt;
  search_custom_collection _ _ k := take (Z.to_nat k) <$> table;
|}.

Definition doc (i : Z) : Doc := {| pid := i; rank := i + 1; score := 1 |}.

Definition paris_corpus : list string :=
  wrap_passages ["Rome is in Italy."; "The capital is Paris, France."; "Cats sleep.";
                 "Tea is a drink."; "Rivers flow."]%string.

Definition paris_ranking : gmap string (list Doc) :=
  {[ "q1"%string := [doc 0; doc 1; doc 2; doc 3; doc 4] ]}.

Definition paris_batch : @Batch (table_retriever paris_ranking) :=
  @Build_Batch (table_retriever paris_ranking) tt
    ["q1"%string] ["what is the capital of France?"%string] [["paris"%string]].

Definition two_batch : @Batch (table_retriever paris_ranking) :=
  @Build_Batch (table_retriever paris_ranking) tt
    ["q1"; "q2"]%string
    ["what is the capital of France?"; "what do cats do?"]%string
    [["paris"]; ["sleep"]]%string.

Definition sample0 : Sample := {|
  question := "what is this?";
  img_path := "img/1.jpg";
  objects := [ {| obj_class := "car";
                  attributes := ["red"; "tall"; "old"; "blue"]%string;
                  attribute_scores := [0.9; 0.01; 0.2; 0.5]%Q |} ];
  img_ocr := [ {| description := " STOP " |}; {| description := "STOP" |};
               {| description := String "A" (String "010" "B") |} ];
  img_caption := CaptionDict "a red car";
  ROIs := ["img/1.jpg|||car_10_20_110_220"; "img/1.jpg|||sign_3.5_4_5.5_6";
           "img/1.jpg|||dog_1_1_50_50"]%string;
  text_sequence := None;
|}.

(** ** [add_path_prefix_in_img_path] *)

Fixpoint ends_with_char (c : ascii) (s : string) : bool :=
  match s with
  | EmptyString => false
  | String a EmptyString => Ascii.eqb a c
  | String _ s' => ends_with_char c s'
  end.

(** [os.path.join(a, b)] on POSIX: an absolute [b] replaces [a]; otherwise
    [b] is appended, after a slash unless [a] is empty or ends with one. *)
Definition path_join (a b : string) : string :=
  if String.prefix "/" b then b
  else if String.eqb a EmptyString || ends_with_char "/" a then a +:+ b
  else a +:+ "/" +:+ b.

Definition add_path_prefix_in_img_path (example : Sample) (prefix : string) : Sample :=
  let new_ROIs :=
    fold_left (fun new_ROIs ROI => new_ROIs ++ [path_join prefix ROI]) (ROIs example) [] in
  {| question := question example;
     img_path := path_join prefix (img_path example);
     objects := objects example; img_ocr := img_ocr example;
     img_caption := img_caption example; ROIs := new_ROIs;
     text_sequence := text_sequence example |}.

(** ** The final recall *)

(** [np.mean(np.array(column))] of recall values: [None] is the [nan] of an
    empty column. *)
Definition np_mean (column : list Z) : option Q :=
  match column with
  | [] => None
  | _ => Some (Qdiv (inject_Z (fold_right Z.add 0 column))
                    (inject_Z (Z.of_nat (length column))))
  end.

(** ** More notions for stating properties *)

Module Fmt.

(** The descriptor format named in [tokenize_inputs]:
    [{img_path}|||{class}_{xmin}_{ymin}_{xmax}_{ymax}]. *)
Definition ROI (path class_name x0 y0 x1 y1 : string) : string :=
  path +:+ "|||" +:+ class_name +:+ "_" +:+ x0 +:+ "_" +:+ y0 +:+ "_" +:+ x1 +:+ "_" +:+ y1.

Fixpoint has_char (c : ascii) (s : string) : bool :=
  match s with
  | EmptyString => false
  | String a s' => Ascii.eqb a c || has_char c s'
  end.


End Fmt.

(** Recall@K of one query, from the lookup of its ranking on. *)
Definition query_recall (passage_contents : list string)
    (ranking_dict : gmap string (list Doc)) (K : Z) (q : string * list string) : result Z :=
  hits ← query_hits passage_contents ranking_dict q.1 q.2;
  recall_at hits K.

(** The list under the key [Recall@K], empty when the key is absent. *)
Definition column (recall_dict : gmap Z (list Z)) (K : Z) : list Z :=
  default [] (recall_dict !! K).

(** What one query adds to the list under [Recall@K]: its recall, once per
    occurrence of [K] in [Ks]. *)
Definition recall_block (passage_contents : list string)
    (ranking_dict : gmap string (list Doc)) (Ks : list Z) (K : Z)
    (q : string * list string) : list Z :=
  match query_recall passage_contents ranking_dict K q with
  | Ok r => replicate (count_occ Z.eq_dec Ks K) r
  | Raise _ => []
  end.

(** A passage id that [passage_contents[doc_idx]] accepts. *)
Definition pid_in_range (passage_contents : list string) (i : Z) : Prop :=
  - Z.of_nat (length passage_contents) <= i < Z.of_nat (length passage_contents).

(** ** The enlargement, whatever the arithmetic *)

(** The numbers of lines 295 to 301 and what is done with them: the
    comparison [<], [+] and [-], the integers [0], [5] and [img.size], and
    the literal [2.5]. *)
Record Arith : Type := {
  num : Type;
  num_ltb : num -> num -> bool;
  num_add : num -> num -> num;
  num_sub : num -> num -> num;
  num_of_Z : Z -> num;
  num_2_5 : num;
}.

Definition num_max (A : Arith) (a b : num A) : num A := if num_ltb A a b then b else a.
Definition num_min (A : Arith) (a b : num A) : num A := if num_ltb A b a then b else a.

(** [sanitize], on the crop as the tuple [(xmin, ymin, xmax, ymax)]. *)
Definition sanitize_in (A : Arith) (crop : num A * num A * num A * num A) (size : Z * Z)
  : num A * num A * num A * num A :=
  let '(x0, y0, x1, y1) := crop in
  let five := num_of_Z A 5 in
  let zero := num_of_Z A 0 in
  if num_ltb A (num_sub A x1 x0) five && num_ltb A (num_sub A y1 y0) five then
    let '(x0', x1') :=
      if num_ltb A (num_sub A x1 x0) five
      then (num_max A zero (num_sub A x0 (num_2_5 A)),
            num_min A (num_of_Z A (fst size)) (num_add A x1 (num_2_5 A)))
      else (x0, x1) in
    let '(y0', y1') :=
      if num_ltb A (num_sub A y1 y0) five
      then (num_max A zero (num_sub A y0 (num_2_5 A)),
            num_min A (num_of_Z A (snd size)) (num_add A y1 (num_2_5 A)))
      else (y0, y1) in
    (x0', y0', x1', y1')
  else crop.

(** IEEE 754 binary64, as Python's [float]; the integers the source
    compares with ([0], [5], an image size) are below [2^53] in absolute
    value, where the conversion to a double is exact. *)
Definition double_of_Z (z : Z) : PrimFloat.float :=
  if z <? 0 then PrimFloat.opp (PrimFloat.of_uint63 (Uint63.of_Z (- z)))
  else PrimFloat.of_uint63 (Uint63.of_Z z).

Definition double : Arith := {|
  num := PrimFloat.float;
  num_ltb := PrimFloat.ltb;
  num_add := PrimFloat.add;
  num_sub := PrimFloat.sub;
  num_of_Z := double_of_Z;
  num_2_5 := 2.5%float;
|}.

(** Rationals whose sums and differences are rounded by [fl]; integers
    are compared as they are, as Python compares an [int] with a [float]. *)
Definition rounded (fl : Q -> Q) : Arith := {|
  num := Q;
  num_ltb := Qltb;
  num_add x y := fl (x + y)%Q;
  num_sub x y := fl (x - y)%Q;
  num_of_Z := inject_Z;
  num_2_5 := 2.5%Q;
|}.

(** A number that rounding leaves as it is. *)
Definition representable (fl : Q -> Q) (x : Q) : Prop := (fl x == x)%Q.

(** ** The rounding of binary64 *)

(** The nearest integer, the even one of two that are equally near. *)
Definition round_half_even (x : Q) : Z :=
  let f := Qfloor x in
  match (x - inject_Z f ?= 1 # 2)%Q with
  | Lt => f
  | Gt => f + 1
  | Eq => if Z.even f then f else f + 1
  end.

Definition pow2 (e : Z) : Q := (2 ^ e)%Q.

(** The binary exponent of a positive rational [x]: the [e] with
    [2^e <= x < 2^(e+1)]. *)
Definition exponent (x : Q) : Z :=
  let e := Z.log2 (Qnum x) - Z.log2 (Zpos (Qden x)) in
  if Qle_bool (pow2 e) x then e else e - 1.

(** The spacing of the doubles around a positive [x]: 53 significant
    bits, and from the exponent [-1022] down the subnormal spacing. *)
Definition quantum (x : Q) : Q := pow2 (Z.max (exponent x) (-1022) - 52).

Definition round64_pos (x : Q) : Q :=
  (inject_Z (round_half_even (x / quantum x)) * quantum x)%Q.

(** Rounding to the nearest double, ties to even (the overflow to
    infinity left out: it starts above [2^1023]). *)
Definition round64 (x : Q) : Q :=
  match (x ?= 0)%Q with
  | Eq => 0%Q
  | Gt => round64_pos x
  | Lt => (- round64_pos (- x))%Q
  end.

(** The rational a finite double stands for. *)
Definition Q_of_double (f : PrimFloat.float) : option Q :=
  match Prim2SF f with
  | S754_zero _ => Some 0%Q
  | S754_finite s m e => Some ((if s then -1 else 1) * inject_Z (Zpos m) * pow2 e)%Q
  | _ => None
  end.

(** Whether [op] on the doubles [a] and [b] is [qop] on the rationals
    they stand for, rounded by [round64]. *)
Definition rounds_as (op : PrimFloat.float -> PrimFloat.float -> PrimFloat.float)
    (qop : Q -> Q -> Q) (a b : PrimFloat.float) : bool :=
  match Q_of_double a, Q_of_double b, Q_of_double (op a b) with
  | Some qa, Some qb, Some qr => Qeq_bool (round64 (qop qa qb)) qr
  | _, _, _ => false
  end.

(** * Properties *)

(** ** Rational comparisons *)

Lemma Qltb_lt (x y : Q) : Qltb x y = true <-> (x < y)%Q.
Proof.
  unfold Qltb. rewrite negb_true_iff, <- not_true_iff_false, Qle_bool_iff.
  split; [apply Qnot_le_lt | apply Qlt_not_le].
Qed.

Lemma Qltb_ge (x y : Q) : Qltb x y = false <-> (y <= x)%Q.
Proof.
  unfold Qltb. rewrite negb_false_iff. apply Qle_bool_iff.
Qed.

Ltac Qcase x y :=
  let E := fresh "E" in
  destruct (Qltb x y) eqn:E; [apply Qltb_lt in E | apply Qltb_ge in E].

Lemma fmax_spec (a b : Q) : (a < b /\ fmax a b = b)%Q \/ (b <= a /\ fmax a b = a)%Q.
Proof. unfold fmax. Qcase a b; auto. Qed.

Lemma fmin_spec (a b : Q) : (b < a /\ fmin a b = b)%Q \/ (a <= b /\ fmin a b = a)%Q.
Proof. unfold fmin. Qcase b a; auto. Qed.

(** ** The rounding of binary64 *)

Lemma pow2_pos (e : Z) : (0 < pow2 e)%Q.
Proof. apply Qpower_0_lt. reflexivity. Qed.

Lemma pow2_add (a b : Z) : (pow2 (a + b) == pow2 a * pow2 b)%Q.
Proof. apply Qpower_plus. discriminate. Qed.

Lemma pow2_succ (e : Z) : (pow2 (e + 1) == 2 * pow2 e)%Q.
Proof. rewrite pow2_add. unfold pow2 at 2. rewrite Qpower_1_r. ring. Qed.

Lemma pow2_le (a b : Z) : a <= b -> (pow2 a <= pow2 b)%Q.
Proof. intros H. apply Qpower_le_compat_l; [exact H | discriminate]. Qed.

Lemma pow2_lt_inv (a b : Z) : (pow2 a < pow2 b)%Q -> a < b.
Proof. intros H. apply (Qpower_lt_compat_l_inv 2); [exact H | reflexivity]. Qed.


Lemma pow2_Z (n : Z) : 0 <= n -> (pow2 n == inject_Z (2 ^ n))%Q.
Proof. intros H. unfold pow2. symmetry. apply (Zpower_Qpower 2 n H). Qed.

(** The exponent is the one the bounds determine. *)

Lemma exponent_bounds (x : Q) :
  (0 < x)%Q -> (pow2 (exponent x) <= x < pow2 (exponent x + 1))%Q.
Proof.
  intros Hx. destruct x as [n d]. unfold exponent. cbn [Qnum Qden].
  assert (Hn : 0 < n) by (unfold Qlt in Hx; simpl in Hx; lia).
  pose proof (Z.log2_spec n Hn) as [Hn1 Hn2].
  pose proof (Z.log2_spec (Z.pos d) (Pos2Z.is_pos d)) as [Hd1 Hd2].
  pose proof (Z.log2_nonneg n) as Ha. pose proof (Z.log2_nonneg (Z.pos d)) as Hb.
  set (a := Z.log2 n) in *. set (b := Z.log2 (Z.pos d)) in *.
  assert (Hlow : (pow2 (a - b - 1) <= n # d)%Q /\ (n # d < pow2 (a - b + 1))%Q).
  { assert (E1 : (pow2 (a - b - 1) == pow2 a / pow2 (b + 1))%Q).
    { replace (a - b - 1) with (a - (b + 1)) by lia. apply Qpower_minus. discriminate. }
    assert (E2 : (pow2 (a - b + 1) == pow2 (a + 1) / pow2 b)%Q).
    { replace (a - b + 1) with (a + 1 - b) by lia. apply Qpower_minus. discriminate. }
    rewrite E1, E2, !pow2_Z by lia.
    assert (P1 : (0 < inject_Z (2 ^ b))%Q).
    { rewrite <- pow2_Z by lia. apply pow2_pos. }
    assert (P2 : (0 < inject_Z (2 ^ (b + 1)))%Q).
    { rewrite <- pow2_Z by lia. apply pow2_pos. }
    split.
    - apply Qle_shift_div_r; [exact P2 |].
      unfold Qle, Qmult, inject_Z. cbn [Qnum Qden].
      rewrite Z.mul_1_r, Pos.mul_1_r.
      apply Z.mul_le_mono_nonneg; lia.
    - apply Qlt_shift_div_l; [exact P1 |].
      unfold Qlt, Qmult, inject_Z. cbn [Qnum Qden].
      rewrite Z.mul_1_r, Pos.mul_1_r.
      assert (0 < 2 ^ b) by (apply Z.pow_pos_nonneg; lia).
      apply Z.lt_le_trans with (2 ^ (a + 1) * 2 ^ b).
      + apply Z.mul_lt_mono_pos_r; lia.
      + apply Z.mul_le_mono_nonneg_l; lia. }
  destruct Hlow as [Hlow Hhigh].
  destruct (Qle_bool (pow2 (a - b)) (n # d)) eqn:E.
  - apply Qle_bool_iff in E. split; [exact E | exact Hhigh].
  - split; [exact Hlow |].
    replace (a - b - 1 + 1) with (a - b) by lia.
    apply Qnot_le_lt. intros H. apply Qle_bool_iff in H. congruence.
Qed.

Lemma exponent_unique (x : Q) (e : Z) :
  (pow2 e <= x < pow2 (e + 1))%Q -> exponent x = e.
Proof.
  intros [H1 H2].
  assert (Hx : (0 < x)%Q) by (eapply Qlt_le_trans; [apply (pow2_pos e) | exact H1]).
  destruct (exponent_bounds x Hx) as [H3 H4].
  assert (exponent x < e + 1).
  { apply pow2_lt_inv. eapply Qle_lt_trans; [exact H3 | exact H2]. }
  assert (e < exponent x + 1).
  { apply pow2_lt_inv. eapply Qle_lt_trans; [exact H1 | exact H4]. }
  lia.
Qed.

Lemma exponent_compat (x y : Q) : (0 < x)%Q -> (x == y)%Q -> exponent x = exponent y.
Proof.
  intros Hx Hxy. symmetry. apply exponent_unique. rewrite <- Hxy.
  apply exponent_bounds. exact Hx.
Qed.

Lemma exponent_mono (x y : Q) : (0 < x)%Q -> (x <= y)%Q -> exponent x <= exponent y.
Proof.
  intros Hx Hxy.
  assert (Hy : (0 < y)%Q) by (eapply Qlt_le_trans; eassumption).
  destruct (exponent_bounds x Hx) as [H1 _], (exponent_bounds y Hy) as [_ H2].
  assert (exponent x < exponent y + 1); [| lia].
  apply pow2_lt_inv. eapply Qle_lt_trans; [exact H1 |]. eapply Qle_lt_trans; eassumption.
Qed.


Lemma round_half_even_compat (x y : Q) : (x == y)%Q -> round_half_even x = round_half_even y.
Proof.
  intros Hxy. unfold round_half_even.
  rewrite (Qfloor_comp x y Hxy).
  assert (E : (x - inject_Z (Qfloor y) ?= 1 # 2)%Q = (y - inject_Z (Qfloor y) ?= 1 # 2)%Q).
  { apply Qcompare_comp; [rewrite Hxy |]; reflexivity. }
  rewrite E. reflexivity.
Qed.

Ltac Qcmp C := first [apply Qeq_alt in C | apply Qlt_alt in C | apply Qgt_alt in C].

Lemma round_half_even_bounds (x : Q) :
  Qfloor x <= round_half_even x <= Qfloor x + 1.
Proof.
  unfold round_half_even.
  destruct (x - inject_Z (Qfloor x) ?= 1 # 2)%Q; [destruct (Z.even (Qfloor x)) | |]; lia.
Qed.

Lemma round_half_even_mono (x y : Q) : (x <= y)%Q -> round_half_even x <= round_half_even y.
Proof.
  intros Hxy. pose proof (Qfloor_resp_le x y Hxy) as Hf.
  destruct (Z.eq_dec (Qfloor x) (Qfloor y)) as [E | N].
  - unfold round_half_even. rewrite E.
    destruct (x - inject_Z (Qfloor y) ?= 1 # 2)%Q eqn:Cx;
      destruct (y - inject_Z (Qfloor y) ?= 1 # 2)%Q eqn:Cy;
      try (destruct (Z.even (Qfloor y))); try lia;
      exfalso; Qcmp Cx; Qcmp Cy; lra.
  - pose proof (round_half_even_bounds x). pose proof (round_half_even_bounds y). lia.
Qed.

Lemma round_half_even_Z (n : Z) : round_half_even (inject_Z n) = n.
Proof.
  unfold round_half_even. rewrite Qfloor_Z.
  assert (E : (inject_Z n - inject_Z n ?= 1 # 2)%Q = Lt).
  { rewrite <- Qlt_alt. lra. }
  rewrite E. reflexivity.
Qed.

Lemma round_half_even_error (x : Q) :
  (- (1 # 2) <= inject_Z (round_half_even x) - x <= 1 # 2)%Q.
Proof.
  pose proof (Qfloor_le x) as H1. pose proof (Qlt_floor x) as H2.
  rewrite inject_Z_plus in H2. change (inject_Z 1) with 1%Q in H2.
  unfold round_half_even.
  destruct (x - inject_Z (Qfloor x) ?= 1 # 2)%Q eqn:C;
    [destruct (Z.even (Qfloor x)) | |];
    Qcmp C; rewrite ?inject_Z_plus; change (inject_Z 1) with 1%Q; lra.
Qed.


Lemma round64_pos_eq (x : Q) :
  round64_pos x = (inject_Z (round_half_even (x / quantum x)) * quantum x)%Q.
Proof. reflexivity. Qed.

Lemma quantum_pos (x : Q) : (0 < quantum x)%Q.
Proof. apply pow2_pos. Qed.

Lemma round64_pos_compat (x y : Q) :
  (0 < x)%Q -> (x == y)%Q -> (round64_pos x == round64_pos y)%Q.
Proof.
  intros Hx Hxy. rewrite !round64_pos_eq. unfold quantum.
  rewrite (exponent_compat x y Hx Hxy).
  rewrite (round_half_even_compat (x / _) (y / pow2 (Z.max (exponent y) (-1022) - 52))).
  - reflexivity.
  - rewrite Hxy. reflexivity.
Qed.

Lemma round64_pos_nonneg (x : Q) : (0 <= x)%Q -> (0 <= round64_pos x)%Q.
Proof.
  intros Hx. rewrite round64_pos_eq.
  apply Qmult_le_0_compat; [| apply Qlt_le_weak, quantum_pos].
  change 0%Q with (inject_Z 0). rewrite <- Zle_Qle.
  rewrite <- (round_half_even_Z 0). apply round_half_even_mono.
  apply Qle_shift_div_l; [apply quantum_pos |].
  change (inject_Z 0) with 0%Q. rewrite Qmult_0_l. exact Hx.
Qed.

(** Below and above a power of two. *)
Lemma round64_pos_le_pow2 (x : Q) (e : Z) :
  (0 < x)%Q -> Z.max (exponent x) (-1022) <= e -> (x <= pow2 e)%Q ->
  (round64_pos x <= pow2 e)%Q.
Proof.
  intros Hx He Hle. rewrite round64_pos_eq. unfold quantum.
  set (q := Z.max (exponent x) (-1022) - 52) in *.
  assert (E : (pow2 e == inject_Z (2 ^ (e - q)) * pow2 q)%Q).
  { rewrite <- pow2_Z by lia. rewrite <- pow2_add. replace (e - q + q) with e by lia.
    reflexivity. }
  rewrite E. apply Qmult_le_compat_r; [| apply Qlt_le_weak, pow2_pos].
  rewrite <- Zle_Qle. rewrite <- (round_half_even_Z (2 ^ (e - q))).
  apply round_half_even_mono.
  apply Qle_shift_div_r; [apply pow2_pos |]. rewrite <- E. exact Hle.
Qed.

Lemma round64_pos_ge_pow2 (x : Q) (e : Z) :
  (0 < x)%Q -> Z.max (exponent x) (-1022) - 52 <= e -> (pow2 e <= x)%Q ->
  (pow2 e <= round64_pos x)%Q.
Proof.
  intros Hx He Hle. rewrite round64_pos_eq. unfold quantum.
  set (q := Z.max (exponent x) (-1022) - 52) in *.
  assert (E : (pow2 e == inject_Z (2 ^ (e - q)) * pow2 q)%Q).
  { rewrite <- pow2_Z by lia. rewrite <- pow2_add. replace (e - q + q) with e by lia.
    reflexivity. }
  rewrite E. apply Qmult_le_compat_r; [| apply Qlt_le_weak, pow2_pos].
  rewrite <- Zle_Qle. rewrite <- (round_half_even_Z (2 ^ (e - q))) at 1.
  apply round_half_even_mono.
  apply Qle_shift_div_l; [apply pow2_pos |]. rewrite <- E. exact Hle.
Qed.

Lemma round64_pos_mono (x y : Q) :
  (0 < x)%Q -> (x <= y)%Q -> (round64_pos x <= round64_pos y)%Q.
Proof.
  intros Hx Hxy.
  assert (Hy : (0 < y)%Q) by (eapply Qlt_le_trans; eassumption).
  pose proof (exponent_mono x y Hx Hxy) as He.
  destruct (Z.eq_dec (Z.max (exponent x) (-1022)) (Z.max (exponent y) (-1022))) as [E | N].
  - rewrite !round64_pos_eq. unfold quantum. rewrite E.
    apply Qmult_le_compat_r; [| apply Qlt_le_weak, pow2_pos].
    rewrite <- Zle_Qle. apply round_half_even_mono.
    apply Qmult_le_compat_r; [exact Hxy |]. apply Qlt_le_weak, Qinv_lt_0_compat, pow2_pos.
  - destruct (exponent_bounds x Hx) as [_ Hx2], (exponent_bounds y Hy) as [Hy1 _].
    apply Qle_trans with (pow2 (exponent y)).
    + apply round64_pos_le_pow2; [exact Hx | lia |].
      apply Qle_trans with (pow2 (exponent x + 1)); [lra | apply pow2_le; lia].
    + apply round64_pos_ge_pow2; [exact Hy | lia | exact Hy1].
Qed.

Lemma round64_compat (x y : Q) : (x == y)%Q -> (round64 x == round64 y)%Q.
Proof.
  intros Hxy. unfold round64.
  assert (E : (x ?= 0)%Q = (y ?= 0)%Q) by (apply Qcompare_comp; [exact Hxy | reflexivity]).
  rewrite <- E. destruct (x ?= 0)%Q eqn:C; [reflexivity | |].
  - Qcmp C. apply Qopp_comp, round64_pos_compat; [lra | rewrite Hxy; reflexivity].
  - Qcmp C. apply round64_pos_compat; [lra | exact Hxy].
Qed.

Lemma round64_mono (x y : Q) : (x <= y)%Q -> (round64 x <= round64 y)%Q.
Proof.
  intros Hxy. unfold round64.
  destruct (x ?= 0)%Q eqn:Cx; destruct (y ?= 0)%Q eqn:Cy;
    Qcmp Cx; Qcmp Cy; try lra.
  - apply round64_pos_nonneg. lra.
  - pose proof (round64_pos_nonneg (- x)). lra.
  - pose proof (round64_pos_mono (- y) (- x)). lra.
  - pose proof (round64_pos_nonneg (- x)). pose proof (round64_pos_nonneg y). lra.
  - apply round64_pos_mono; lra.
Qed.


Lemma round64_pos_error (x : Q) (k : Z) :
  (0 < x)%Q -> (x < pow2 k)%Q -> -1021 <= k ->
  (- pow2 (k - 54) <= round64_pos x - x <= pow2 (k - 54))%Q.
Proof.
  intros Hx Hk Hmin. rewrite round64_pos_eq.
  destruct (exponent_bounds x Hx) as [He _].
  assert (Hek : exponent x < k).
  { apply pow2_lt_inv. eapply Qle_lt_trans; eassumption. }
  pose proof (quantum_pos x) as Hq.
  assert (Hqk : (quantum x <= 2 * pow2 (k - 54))%Q).
  { rewrite <- pow2_succ. apply pow2_le. lia. }
  pose proof (round_half_even_error (x / quantum x)) as Herr.
  set (r := inject_Z (round_half_even (x / quantum x))) in *.
  assert (E : (r * quantum x - x == (r - x / quantum x) * quantum x)%Q).
  { field. lra. }
  rewrite E. set (d := (r - x / quantum x)%Q) in *. clearbody d. clear E.
  nra.
Qed.

Lemma round64_error (x : Q) (k : Z) :
  (0 <= x)%Q -> (x < pow2 k)%Q -> -1021 <= k ->
  (- pow2 (k - 54) <= round64 x - x <= pow2 (k - 54))%Q.
Proof.
  intros Hx Hk Hmin. unfold round64.
  destruct (x ?= 0)%Q eqn:C; Qcmp C; [| lra |].
  - pose proof (pow2_pos (k - 54)). lra.
  - apply round64_pos_error; [lra | exact Hk | exact Hmin].
Qed.

(** Integers of up to 53 bits are representable. *)
Lemma round64_Z (n : Z) : 0 <= n <= 2 ^ 53 -> (round64 (inject_Z n) == inject_Z n)%Q.
Proof.
  intros Hn. unfold round64.
  destruct (inject_Z n ?= 0)%Q eqn:C; Qcmp C.
  - symmetry. exact C.
  - exfalso. change 0%Q with (inject_Z 0) in C. rewrite <- Zlt_Qlt in C. lia.
  - change 0%Q with (inject_Z 0) in C. rewrite <- Zlt_Qlt in C.
    pose proof (Z.log2_spec n C) as [H1 H2]. pose proof (Z.log2_nonneg n) as H0.
    assert (Hlog : Z.log2 n <= 53).
    { rewrite <- (Z.log2_pow2 53) by lia. apply Z.log2_le_mono. lia. }
    assert (He : exponent (inject_Z n) = Z.log2 n).
    { apply exponent_unique. rewrite !pow2_Z by lia. rewrite <- Zle_Qle, <- Zlt_Qlt.
      replace (Z.log2 n + 1) with (Z.succ (Z.log2 n)) by lia. lia. }
    rewrite round64_pos_eq. unfold quantum. rewrite He.
    replace (Z.max (Z.log2 n) (-1022)) with (Z.log2 n) by lia.
    destruct (Z.eq_dec (Z.log2 n) 53) as [E53 | N53].
    + rewrite E53.
      assert (En : n = 2 ^ 53) by (rewrite E53 in H1; lia).
      rewrite En. vm_compute. reflexivity.
    + set (q := Z.log2 n - 52).
      assert (E : (inject_Z n / pow2 q == inject_Z (n * 2 ^ (- q)))%Q).
      { rewrite inject_Z_mult, <- pow2_Z by lia.
        unfold pow2. rewrite Qpower_opp. reflexivity. }
      rewrite (round_half_even_compat _ _ E), round_half_even_Z.
      rewrite inject_Z_mult, <- pow2_Z by lia.
      rewrite <- Qmult_assoc, <- pow2_add. replace (- q + q) with 0 by lia.
      unfold pow2. rewrite Qpower_0_r. ring.
Qed.

(** ** The ROI sanitizer *)

Lemma sanitize_large (b : Box) (size : Z * Z) :
  (5 <= Spec.width b \/ 5 <= Spec.height b)%Q -> sanitize b size = b.
Proof.
  unfold Spec.width, Spec.height, sanitize. intros Hbig.
  Qcase (xmax b - xmin b)%Q 5%Q; Qcase (ymax b - ymin b)%Q 5%Q; simpl; try reflexivity.
  destruct Hbig; lra.
Qed.

Lemma sanitize_small (b : Box) (size : Z * Z) :
  (Spec.width b < 5)%Q -> (Spec.height b < 5)%Q ->
  sanitize b size =
    {| xmin := fmax 0 (xmin b - 2.5); ymin := fmax 0 (ymin b - 2.5);
       xmax := fmin (inject_Z (fst size)) (xmax b + 2.5);
       ymax := fmin (inject_Z (snd size)) (ymax b + 2.5) |}.
Proof.
  unfold Spec.width, Spec.height, sanitize. intros Hw Hh.
  apply Qltb_lt in Hw, Hh. rewrite Hw, Hh. reflexivity.
Qed.

Ltac Qconcrete :=
  repeat split; vm_compute; first [reflexivity | discriminate | congruence].

(** [round64] is the rounding of the sums, differences and products of
    doubles, here on ties, on subnormal numbers and at the sum the
    enlargement gets wrong. *)
Example round64_is_the_rounding_of_doubles :
  forallb (fun '(a, b) => rounds_as PrimFloat.add Qplus a b
                          && rounds_as PrimFloat.sub Qminus a b
                          && rounds_as PrimFloat.mul Qmult a b)
    [ (0x1.6000000000001p+2, 0x1.4p+1); (0x1.999999999999ap-4, 0x1.999999999999ap-3);
      (0x0.00000000007e8p-1022, 0x0.00000000017b8p-1022);
      (0x1.7e43c8800759cp+996, 0x1.56e1fc2f8f359p-997);
      (0x1.8p+1, 0x1p-53); (0x1.8p+1, 0x1.8p-52); (0x1p+0, 0x1p-53);
      (0x1p+0, 0x1.0000000000001p-53); (-0x1.999999999999ap-4, 0x1.3333333333333p-2);
      (0x0.0000000000001p-1022, 0x0.0000000000001p-1022);
      (0x1.fffffffffffffp+52, 0x1p-1); (0x1.fffffffffffffp+52, 0x1.8p+0) ]%float
  = true.
Proof. vm_compute. reflexivity. Qed.

(** With exact sums the generic enlargement is [sanitize]. *)
Lemma sanitize_in_exact (b : Box) (size : Z * Z) :
  sanitize_in (rounded (fun x => x)) (xmin b, ymin b, xmax b, ymax b) size
  = (xmin (sanitize b size), ymin (sanitize b size),
     xmax (sanitize b size), ymax (sanitize b size)).
Proof.
  unfold sanitize_in, sanitize, rounded, num_max, num_min. cbn.
  change (inject_Z 5) with 5%Q.
  destruct (Qltb (xmax b - xmin b) 5), (Qltb (ymax b - ymin b) 5); reflexivity.
Qed.

(** C5, as stated, fails on doubles: the box of the single point
    5.500000000000001 (the double after 5.5), in an image of 100 by 100
    pixels, has sides of 0 pixels and 3 pixels of margin and more on each
    side; the sum [x + 2.5] is rounded down to 8 while [x - 2.5] is exact,
    and the box that comes back has sides below 5 pixels, in exact
    arithmetic and as the source would compute them. *)
Lemma sanitize_double_short_side :
  let x := 0x1.6000000000001p+2%float in
  let lo := 0x1.8000000000002p+1%float in
  let hi := 0x1p+3%float in
  sanitize_in double (x, x, x, x) (100, 100) = (lo, lo, hi, hi)
  /\ PrimFloat.ltb (PrimFloat.sub hi lo) 5 = true
  /\ match Q_of_double x, Q_of_double lo, Q_of_double hi with
     | Some x, Some lo, Some hi =>
         (x - x < 5 /\ 0 <= x - 2.5 /\ x + 2.5 <= 100
          /\ hi - lo < 5 /\ lo == x - 2.5 /\ hi < x + 2.5)%Q
     | _, _, _ => False
     end.
Proof. Qconcrete. Qed.

(** The same box on rationals rounded by [round64]. *)
Example sanitize_round64_short_side :
  let x := (6192449487634433 # 1125899906842624)%Q in
  Q_of_double 0x1.6000000000001p+2 = Some x
  /\ exists a0 b0 a1 b1,
       sanitize_in (rounded round64) (x, x, x, x) (100, 100) = (a0, b0, a1, b1)
       /\ (a0 == x - 2.5 /\ b0 == x - 2.5 /\ a1 == 8 /\ b1 == 8)%Q.
Proof. split; [vm_compute; reflexivity |]. do 4 eexists. split; [reflexivity |]. Qconcrete. Qed.

Section Rounding.

(** A rounding of the rationals: it keeps the order and leaves 0 as it
    is. *)
Variable fl : Q -> Q.
Hypothesis fl_mono : forall x y : Q, (x <= y)%Q -> (fl x <= fl y)%Q.
Hypothesis fl_zero : representable fl 0.

Lemma sanitize_in_small (x0 y0 x1 y1 : Q) (size : Z * Z) :
  (fl (x1 - x0) < 5)%Q -> (fl (y1 - y0) < 5)%Q ->
  sanitize_in (rounded fl) (x0, y0, x1, y1) size
  = (fmax 0 (fl (x0 - 2.5)), fmax 0 (fl (y0 - 2.5)),
     fmin (inject_Z (fst size)) (fl (x1 + 2.5)), fmin (inject_Z (snd size)) (fl (y1 + 2.5))).
Proof.
  intros Hw Hh. apply Qltb_lt in Hw, Hh.
  unfold sanitize_in, rounded. cbn.
  change (inject_Z 5) with 5%Q. rewrite Hw, Hh. reflexivity.
Qed.

Lemma rounded_below (x y : Q) : representable fl y -> (x <= y)%Q -> (fl x <= y)%Q.
Proof. intros Hy Hxy. unfold representable in Hy. rewrite <- Hy. by apply fl_mono. Qed.

Lemma rounded_above (x y : Q) : representable fl x -> (x <= y)%Q -> (x <= fl y)%Q.
Proof. intros Hx Hxy. unfold representable in Hx. rewrite <- Hx. by apply fl_mono. Qed.

(** C5, amended: a box of representable numbers with ordered corners, with
    both sides under 5 pixels as the source computes them, inside an image
    that leaves 2.5 pixels of margin on each of its sides, comes back grown
    by 2.5 pixels on each side, each of the four sums rounded (the clamps
    to 0 and to the image size are inactive); it contains the box it came
    from and lies in the image, and each of its sides is at least 5 pixels
    less the rounding errors of its two sums: at least [5 - 2 * e] when
    neither is off by more than [e], and at least 5 when both are exact. *)
Theorem sanitize_small_box_grows_rounded (x0 y0 x1 y1 : Q) (size : Z * Z) :
  representable fl x0 -> representable fl y0 ->
  representable fl x1 -> representable fl y1 ->
  representable fl (inject_Z (fst size)) -> representable fl (inject_Z (snd size)) ->
  (x0 <= x1)%Q -> (y0 <= y1)%Q ->
  (fl (x1 - x0) < 5)%Q -> (fl (y1 - y0) < 5)%Q ->
  (2.5 <= x0)%Q -> (2.5 <= y0)%Q ->
  (x1 + 2.5 <= inject_Z (fst size))%Q -> (y1 + 2.5 <= inject_Z (snd size))%Q ->
  exists a0 b0 a1 b1 : Q,
    sanitize_in (rounded fl) (x0, y0, x1, y1) size = (a0, b0, a1, b1)
    /\ (a0 == fl (x0 - 2.5) /\ b0 == fl (y0 - 2.5)
        /\ a1 == fl (x1 + 2.5) /\ b1 == fl (y1 + 2.5))%Q
    /\ (0 <= a0 <= x0 /\ x1 <= a1 <= inject_Z (fst size))%Q
    /\ (0 <= b0 <= y0 /\ y1 <= b1 <= inject_Z (snd size))%Q
    /\ (forall e : Q,
          fl (x0 - 2.5) - (x0 - 2.5) <= e -> (x1 + 2.5) - fl (x1 + 2.5) <= e ->
          5 - 2 * e <= a1 - a0)%Q
    /\ (forall e : Q,
          fl (y0 - 2.5) - (y0 - 2.5) <= e -> (y1 + 2.5) - fl (y1 + 2.5) <= e ->
          5 - 2 * e <= b1 - b0)%Q.
Proof.
  intros Rx0 Ry0 Rx1 Ry1 RW RH Hx Hy Hw Hh Hl Ht Hr Hb.
  rewrite (sanitize_in_small x0 y0 x1 y1 size Hw Hh).
  do 4 eexists. split; [reflexivity |].
  assert (0 <= fl (x0 - 2.5))%Q by (apply (rounded_above 0); [exact fl_zero | lra]).
  assert (0 <= fl (y0 - 2.5))%Q by (apply (rounded_above 0); [exact fl_zero | lra]).
  assert (fl (x0 - 2.5) <= x0)%Q by (apply rounded_below; [exact Rx0 | lra]).
  assert (fl (y0 - 2.5) <= y0)%Q by (apply rounded_below; [exact Ry0 | lra]).
  assert (x1 <= fl (x1 + 2.5))%Q by (apply rounded_above; [exact Rx1 | lra]).
  assert (y1 <= fl (y1 + 2.5))%Q by (apply rounded_above; [exact Ry1 | lra]).
  assert (fl (x1 + 2.5) <= inject_Z (fst size))%Q by (apply rounded_below; [exact RW | lra]).
  assert (fl (y1 + 2.5) <= inject_Z (snd size))%Q by (apply rounded_below; [exact RH | lra]).
  destruct (fmax_spec 0 (fl (x0 - 2.5))) as [[? ->] | [? ->]],
           (fmax_spec 0 (fl (y0 - 2.5))) as [[? ->] | [? ->]],
           (fmin_spec (inject_Z (fst size)) (fl (x1 + 2.5))) as [[? ->] | [? ->]],
           (fmin_spec (inject_Z (snd size)) (fl (y1 + 2.5))) as [[? ->] | [? ->]];
    repeat split; try intros e He0 He1; lra.
Qed.

End Rounding.

Lemma sanitize_small_box_grows_rounded_witness :
  let x := (6192449487634433 # 1125899906842624)%Q in
  exists a0 b0 a1 b1 : Q,
    sanitize_in (rounded round64) (x, x, x, x) (100, 100) = (a0, b0, a1, b1)
    /\ (x <= a1 <= 100 /\ 5 - 2 * pow2 (-50) <= a1 - a0)%Q.
Proof.
  intros x.
  destruct (sanitize_small_box_grows_rounded round64 round64_mono
              ltac:(vm_compute; reflexivity) x x x x (100, 100))
    as (a0 & b0 & a1 & b1 & Hbox & _ & (_ & Hin) & _ & Hside & _);
    try (vm_compute; first [reflexivity | discriminate]).
  exists a0, b0, a1, b1. split; [exact Hbox |]. split; [exact Hin |].
  apply Hside; vm_compute; discriminate.
Defined.

(** C6, as stated, fails: a box that is not small in both dimensions is
    returned as it is, also when it lies outside the image. *)
Lemma sanitize_keeps_invalid_box :
  let b := {| xmin := -10; ymin := -10; xmax := 100; ymax := 100 |} in
  sanitize b (50, 50)%Z = b /\ ~ Spec.valid_box (sanitize b (50, 50)%Z) (50, 50)%Z.
Proof.
  intros b. split; [reflexivity |].
  intros ((H & _) & _). vm_compute in H. congruence.
Qed.

(** The enlarging branch clamps [xmin] from below and [xmax] from above
    only: a small box to the right of the image keeps an [xmin] beyond it. *)
Example sanitize_small_box_outside :
  sanitize {| xmin := 60; ymin := 60; xmax := 62; ymax := 62 |} (50, 50)%Z
  = {| xmin := 60 - 2.5; ymin := 60 - 2.5; xmax := inject_Z 50; ymax := inject_Z 50 |}.
Proof. reflexivity. Qed.

(** C6, amended: [sanitize] is a total function, and the box it returns
    lies within the image whenever the box it is given does. *)
Theorem sanitize_preserves_valid (b : Box) (size : Z * Z) :
  Spec.valid_box b size -> Spec.valid_box (sanitize b size) size.
Proof.
  unfold Spec.valid_box. intros (Hx0 & Hx1 & Hy0 & Hy1).
  destruct (Qlt_le_dec (Spec.width b) 5) as [Hw | Hw];
    [destruct (Qlt_le_dec (Spec.height b) 5) as [Hh | Hh] |];
    [| rewrite sanitize_large by auto; auto ..].
  rewrite (sanitize_small b size Hw Hh). cbn [xmin ymin xmax ymax].
  destruct (fmax_spec 0 (xmin b - 2.5)) as [[? ->] | [? ->]],
           (fmax_spec 0 (ymin b - 2.5)) as [[? ->] | [? ->]],
           (fmin_spec (inject_Z (fst size)) (xmax b + 2.5)) as [[? ->] | [? ->]],
           (fmin_spec (inject_Z (snd size)) (ymax b + 2.5)) as [[? ->] | [? ->]];
    repeat split; lra.
Qed.

Lemma sanitize_preserves_valid_witness :
  Spec.valid_box (sanitize {| xmin := 1; ymin := 48; xmax := 3; ymax := 50 |} (50, 50)%Z) (50, 50)%Z.
Proof.
  apply sanitize_preserves_valid. Qconcrete.
Defined.

(** ** Loops that build lists *)

Lemma fold_left_snoc_map {A B : Type} (f : A -> B) (l : list A) (acc : list B) :
  fold_left (fun acc x => acc ++ [f x]) l acc = acc ++ map f l.
Proof.
  revert acc. induction l as [| x l IH]; intros acc; simpl.
  - by rewrite app_nil_r.
  - by rewrite IH, <- app_assoc.
Qed.

Lemma hit_list_map (gold : list string) (texts : list string) :
  hit_list gold texts = map (hit gold) texts.
Proof. unfold hit_list. by rewrite fold_left_snoc_map. Qed.

Lemma length_hit_list (gold : list string) (texts : list string) :
  length (hit_list gold texts) = length texts.
Proof. by rewrite hit_list_map, length_map. Qed.

(** ** Maximum of a hit window *)

Lemma fold_left_max_le (l : list Z) (x : Z) : x <= fold_left Z.max l x.
Proof.
  revert x. induction l as [| y l IH]; intros x; simpl; [lia |].
  specialize (IH (Z.max x y)). lia.
Qed.

Lemma fold_left_max_mono (l : list Z) (x y : Z) :
  x <= y -> fold_left Z.max l x <= fold_left Z.max l y.
Proof.
  revert x y. induction l as [| z l IH]; intros x y Hxy; simpl; [lia |].
  apply IH. lia.
Qed.

Lemma fold_left_max_upper (l : list Z) (x h : Z) :
  h ∈ x :: l -> h <= fold_left Z.max l x.
Proof.
  revert x. induction l as [| y l IH]; intros x Hin; simpl.
  - apply list_elem_of_singleton in Hin. lia.
  - apply elem_of_cons in Hin as [-> | Hin].
    + etrans; [| apply fold_left_max_le]. lia.
    + apply elem_of_cons in Hin as [-> | Hin].
      * etrans; [| apply fold_left_max_le]. lia.
      * etrans; [apply (IH y); set_solver |]. apply fold_left_max_mono. lia.
Qed.

Lemma fold_left_max_elem (l : list Z) (x : Z) : fold_left Z.max l x ∈ x :: l.
Proof.
  revert x. induction l as [| y l IH]; intros x; simpl; [set_solver |].
  specialize (IH (Z.max x y)).
  apply elem_of_cons in IH as [Heq | Hin]; [| set_solver].
  rewrite Heq. destruct (Z.max_spec x y) as [[_ ->] | [_ ->]]; set_solver.
Qed.

Lemma np_max_nonempty (l : list Z) :
  l ≠ [] -> exists m, np_max l = Ok m /\ m ∈ l /\ (forall h, h ∈ l -> h <= m).
Proof.
  destruct l as [| x l]; [done |]. intros _. eexists. split; [reflexivity |].
  split; [apply fold_left_max_elem | intros h; apply fold_left_max_upper].
Qed.

Lemma np_max_app (l1 l2 : list Z) (m1 m2 : Z) :
  np_max l1 = Ok m1 -> np_max (l1 ++ l2) = Ok m2 -> m1 <= m2.
Proof.
  destruct l1 as [| x l1]; [done |]. simpl. intros [= <-] [= <-].
  rewrite fold_left_app. apply fold_left_max_le.
Qed.

(** ** Slices *)

Lemma slice_to_nonneg {A : Type} (l : list A) (K : Z) :
  0 <= K -> Py.slice_to l K = take (Z.to_nat K) l.
Proof. unfold Py.slice_to. intros H. by rewrite (proj2 (Z.leb_le 0 K) H). Qed.

Lemma slice_to_all {A : Type} (l : list A) (K : Z) :
  Z.of_nat (length l) <= K -> Py.slice_to l K = l.
Proof.
  intros H. rewrite slice_to_nonneg by lia. apply take_ge. lia.
Qed.

Lemma slice_to_nonempty {A : Type} (l : list A) (K : Z) :
  l ≠ [] -> 0 < K -> Py.slice_to l K ≠ [].
Proof.
  intros Hl HK. rewrite slice_to_nonneg by lia.
  destruct l as [| x l]; [done |].
  destruct (Z.to_nat K) eqn:E; [lia | done].
Qed.

Lemma slice_to_prefix {A : Type} (l : list A) (K1 K2 : Z) :
  0 <= K1 -> K1 <= K2 ->
  Py.slice_to l K2 = Py.slice_to l K1 ++ drop (Z.to_nat K1) (Py.slice_to l K2).
Proof.
  intros H1 H2. rewrite !slice_to_nonneg by lia.
  rewrite <- (take_drop (Z.to_nat K1) (take (Z.to_nat K2) l)) at 1.
  rewrite take_take. f_equal. f_equal. lia.
Qed.

(** ** Recall@K *)

(** C2: for a query with a non-empty hit list and cutoffs [0 < K1 < K2],
    Recall@K1 and Recall@K2 are both computed and Recall@K1 <= Recall@K2. *)
Theorem recall_monotone (hits : list Z) (K1 K2 : Z) :
  hits ≠ [] -> 0 < K1 -> K1 < K2 ->
  exists r1 r2,
    recall_at hits K1 = Ok r1 /\ recall_at hits K2 = Ok r2 /\ r1 <= r2.
Proof.
  intros Hne H1 H12. unfold recall_at.
  destruct (np_max_nonempty (Py.slice_to hits K1)) as (r1 & Hr1 & _);
    [apply slice_to_nonempty; [done | lia] |].
  destruct (np_max_nonempty (Py.slice_to hits K2)) as (r2 & Hr2 & _);
    [apply slice_to_nonempty; [done | lia] |].
  exists r1, r2. repeat split; [done .. |].
  rewrite (slice_to_prefix hits K1 K2) in Hr2 by lia.
  eapply np_max_app; eauto.
Qed.

Lemma recall_monotone_witness :
  exists r1 r2,
    recall_at (hit_list ["paris"%string] paris_corpus) 1 = Ok r1
    /\ recall_at (hit_list ["paris"%string] paris_corpus) 5 = Ok r2 /\ r1 <= r2.
Proof.
  apply recall_monotone; [vm_compute; discriminate | lia | lia].
Defined.

(** C10: when the ranking of a query is non-empty and shorter than [K],
    Recall@K is computed, and it is the maximum of the hit indicators of
    the passages returned: the window [hit_list[:K]] is the whole list. *)
Theorem recall_short_ranking (gold texts : list string) (K : Z) :
  texts ≠ [] -> Z.of_nat (length texts) < K ->
  Py.slice_to (hit_list gold texts) K = hit_list gold texts
  /\ recall_at (hit_list gold texts) K = np_max (hit_list gold texts)
  /\ exists m, recall_at (hit_list gold texts) K = Ok m
       /\ m ∈ hit_list gold texts
       /\ (forall h, h ∈ hit_list gold texts -> h <= m).
Proof.
  intros Hne Hlen.
  assert (Hall : Py.slice_to (hit_list gold texts) K = hit_list gold texts).
  { apply slice_to_all. rewrite length_hit_list. lia. }
  unfold recall_at. rewrite Hall. repeat split.
  apply np_max_nonempty. intros Hnil.
  apply (f_equal length) in Hnil. rewrite length_hit_list in Hnil.
  by destruct texts.
Qed.

Lemma recall_short_ranking_witness :
  recall_at (hit_list ["paris"%string] paris_corpus) 50
  = np_max (hit_list ["paris"%string] paris_corpus).
Proof.
  apply (recall_short_ranking ["paris"%string] paris_corpus 50);
    [vm_compute; discriminate | vm_compute; reflexivity].
Defined.

(** ** Substrings and hits *)

Lemma append_cons (c : ascii) (s t : string) : String c s +:+ t = String c (s +:+ t).
Proof. reflexivity. Qed.

Lemma prefix_cons (a b : ascii) (sub s : string) :
  String.prefix (String a sub) (String b s)
  = if Ascii.ascii_dec a b then String.prefix sub s else false.
Proof. reflexivity. Qed.

Lemma prefix_spec (sub s : string) :
  String.prefix sub s = true <-> exists post, s = sub +:+ post.
Proof.
  revert s. induction sub as [| a sub IH]; intros s.
  - split; [intros _; by exists s | by destruct s].
  - destruct s as [| b s]; [split; [done | intros [post [=]]] |].
    rewrite prefix_cons.
    destruct (Ascii.ascii_dec a b) as [-> | Hne].
    + rewrite IH. split; intros [post H]; exists post.
      * by rewrite append_cons, H.
      * rewrite append_cons in H. congruence.
    + split; [done | intros [post [= ? _]]; done].
Qed.

Lemma contains_nil (sub : string) :
  Str.contains sub EmptyString = String.prefix sub EmptyString || false.
Proof. reflexivity. Qed.

Lemma contains_cons (sub : string) (c : ascii) (s : string) :
  Str.contains sub (String c s) = String.prefix sub (String c s) || Str.contains sub s.
Proof. reflexivity. Qed.

Lemma contains_spec (sub s : string) :
  Str.contains sub s = true <-> Spec.substring sub s.
Proof.
  unfold Spec.substring. induction s as [| c s IH].
  - rewrite contains_nil, orb_false_r, prefix_spec. split.
    + intros [post H]. by exists EmptyString, post.
    + intros (pre & post & H). destruct pre; [by exists post | done].
  - rewrite contains_cons, orb_true_iff, IH, prefix_spec. split.
    + intros [[post H] | (pre & post & H)].
      * by exists EmptyString, post.
      * exists (String c pre), post. by rewrite append_cons, H.
    + intros (pre & post & H). destruct pre as [| c' pre].
      * left. by exists post.
      * right. exists pre, post. rewrite append_cons in H. congruence.
Qed.

Lemma found_loop (text : string) (gold : list string) (found : bool) :
  fold_left (found_step text) gold found
  = found || existsb (fun answer => Str.contains (Str.lower (Str.strip answer)) (Str.lower text)) gold.
Proof.
  revert found. induction gold as [| a gold IH]; intros found; simpl.
  - by rewrite orb_false_r.
  - rewrite IH. unfold found_step.
    destruct (Str.contains _ _); simpl; [by rewrite orb_true_r | done].
Qed.

Lemma hit_is_hitb (gold : list string) (text : string) :
  hit gold text = if Spec.is_hitb gold text then 1 else 0.
Proof. unfold hit. by rewrite found_loop. Qed.

Lemma is_hitb_spec (gold : list string) (text : string) :
  Spec.is_hitb gold text = true <-> Spec.is_hit gold text.
Proof.
  unfold Spec.is_hitb, Spec.is_hit. rewrite existsb_exists. split.
  - intros (a & Hin & Hc). exists a. split; [by apply list_elem_of_In |].
    by apply contains_spec.
  - intros (a & Hin & Hs). exists a. split; [by apply list_elem_of_In |].
    by apply contains_spec.
Qed.

Lemma hit_spec (gold : list string) (text : string) :
  (hit gold text = 1 <-> Spec.is_hit gold text)
  /\ (hit gold text = 0 <-> ~ Spec.is_hit gold text).
Proof.
  rewrite hit_is_hitb, <- is_hitb_spec.
  destruct (Spec.is_hitb gold text); split; split; try done; intros H; by destruct H.
Qed.

(** The maximum of a non-empty window of hit indicators is 1 exactly when
    the window holds a hit. *)
Lemma max_of_hits (gold : list string) (text : string) (texts : list string) :
  fold_left Z.max (map (hit gold) texts) (hit gold text)
  = if existsb (Spec.is_hitb gold) (text :: texts) then 1 else 0.
Proof.
  revert text. induction texts as [| t texts IH]; intros text.
  - simpl. rewrite orb_false_r. apply hit_is_hitb.
  - cbn [map fold_left].
    assert (Hmax : Z.max (hit gold text) (hit gold t)
                   = hit gold (if Spec.is_hitb gold text then text else t)).
    { rewrite !hit_is_hitb.
      destruct (Spec.is_hitb gold text) eqn:E1; [rewrite E1 |];
        destruct (Spec.is_hitb gold t) eqn:E2; reflexivity. }
    rewrite Hmax, IH. simpl.
    destruct (Spec.is_hitb gold text) eqn:E1; [by rewrite E1 | done].
Qed.

Lemma recall_at_spec (gold texts : list string) (K : Z) :
  texts ≠ [] -> 1 <= K ->
  recall_at (hit_list gold texts) K = Ok (Spec.recall gold texts K).
Proof.
  intros Hne HK. unfold recall_at, Spec.recall.
  rewrite slice_to_nonneg, hit_list_map by lia.
  rewrite firstn_map.
  destruct texts as [| t texts]; [done |].
  destruct (Z.to_nat K) as [| k] eqn:E; [lia |].
  cbn [take map np_max Py.max_list]. by rewrite max_of_hits.
Qed.

(** C3, as stated, fails on a query for which the searcher returned no
    passage: no passage is a hit, yet Recall@5 is not 0, the evaluation
    raises. *)
Lemma recall_of_empty_ranking_raises :
  Spec.recall ["paris"%string] [] 5 = 0
  /\ recall_at (hit_list ["paris"%string] []) 5 = Raise ValueError
  /\ process_ranking paris_corpus {[ "q1"%string := [] ]} ["q1"%string] [["paris"%string]] [5]
     = Raise ValueError.
Proof. repeat split; vm_compute; reflexivity. Qed.

Lemma recall_spec_one (gold texts : list string) (K : Z) :
  Spec.recall gold texts K = 1
  <-> exists text, text ∈ take (Z.to_nat K) texts /\ Spec.is_hit gold text.
Proof.
  unfold Spec.recall.
  destruct (existsb _ _) eqn:E.
  - split; [intros _ | done]. apply existsb_exists in E as (t & Hin & Hh).
    exists t. split; [by apply list_elem_of_In | by apply is_hitb_spec].
  - split; [done |]. intros (t & Hin & Hh).
    assert (existsb (Spec.is_hitb gold) (take (Z.to_nat K) texts) = true) as E'.
    { apply existsb_exists. exists t. split; [by apply list_elem_of_In | by apply is_hitb_spec]. }
    congruence.
Qed.

Lemma recall_spec_binary (gold texts : list string) (K : Z) :
  Spec.recall gold texts K = 1 \/ Spec.recall gold texts K = 0.
Proof. unfold Spec.recall. destruct (existsb _ _); auto. Qed.

(** C3, amended: a retrieved passage is a hit exactly when some gold answer,
    trimmed and lowered, is a substring of the lowered passage; for a query
    with at least one retrieved passage and a cutoff [K >= 1], Recall@K is
    1 if one of the first [K] passages is a hit and 0 otherwise; with
    ["paris"] as gold answer and the Paris passage at rank 2 of 5,
    Recall@1 = 0 and Recall@5 = 1. *)
Theorem recall_binary_hit (gold : list string) :
  (forall text,
      (hit gold text = 1 <-> Spec.is_hit gold text)
      /\ (hit gold text = 0 <-> ~ Spec.is_hit gold text))
  /\ (forall texts K, texts ≠ [] -> 1 <= K ->
        exists r, recall_at (hit_list gold texts) K = Ok r
          /\ (r = 1 \/ r = 0)
          /\ (r = 1 <-> exists text, text ∈ take (Z.to_nat K) texts /\ Spec.is_hit gold text))
  /\ (hit_list ["paris"%string] paris_corpus = [0; 1; 0; 0; 0]
      /\ exists rd,
           process_ranking paris_corpus paris_ranking ["q1"%string] [["paris"%string]] [1; 5]
           = Ok rd
           /\ rd !! 1 = Some [0] /\ rd !! 5 = Some [1]).
Proof.
  split; [apply hit_spec |]. split.
  - intros texts K Hne HK. exists (Spec.recall gold texts K).
    split; [by apply recall_at_spec |].
    split; [apply recall_spec_binary | apply recall_spec_one].
  - split; [vm_compute; reflexivity |].
    eexists. split; [vm_compute; reflexivity |]. split; vm_compute; reflexivity.
Qed.

Lemma recall_binary_hit_witness :
  exists r, recall_at (hit_list ["paris"%string] paris_corpus) 1 = Ok r
    /\ (r = 1 \/ r = 0)
    /\ (r = 1 <-> exists text, text ∈ take (Z.to_nat 1) paris_corpus
                    /\ Spec.is_hit ["paris"%string] text).
Proof.
  apply (proj1 (proj2 (recall_binary_hit ["paris"%string])) paris_corpus 1);
    [vm_compute; discriminate | lia].
Defined.

(** ** Loops that may raise *)

Lemma for_each_app {A S : Type} (body : S -> A -> result S) (l1 l2 : list A) (s : S) :
  for_each body (l1 ++ l2) s = (s' ← for_each body l1 s; for_each body l2 s').
Proof.
  revert s. induction l1 as [| x l1 IH]; intros s; simpl; [done |].
  destruct (body s x) as [s' | e]; simpl; [apply IH | done].
Qed.

Lemma for_each_raises {A S : Type} (body : S -> A -> result S) (l : list A) (x : A) (s : S) :
  x ∈ l -> (forall s', exists e, body s' x = Raise e) ->
  exists e, for_each body l s = Raise e.
Proof.
  intros Hin Hx. revert s. induction l as [| y l IH]; intros s; [by apply elem_of_nil in Hin |].
  simpl. destruct (body s y) as [s' | e] eqn:E; simpl; [| by exists e].
  apply elem_of_cons in Hin as [-> | Hin]; [| by apply IH].
  destruct (Hx s) as [e He]. congruence.
Qed.

Lemma for_each_ok {A S : Type} (body : S -> A -> result S) (l : list A) (s : S) :
  (forall x s', x ∈ l -> is_Ok (body s' x)) -> is_Ok (for_each body l s).
Proof.
  revert s. induction l as [| y l IH]; intros s Hok; simpl; [by exists s |].
  destruct (Hok y s) as [s' ->]; [set_solver |]. simpl.
  apply IH. intros x s'' Hin. apply Hok. set_solver.
Qed.

Lemma map_result_ok {A B : Type} (f : A -> result B) (l : list A) :
  (forall x, x ∈ l -> is_Ok (f x)) ->
  exists ys, map_result f l = Ok ys /\ length ys = length l.
Proof.
  induction l as [| x l IH]; intros Hok; simpl; [by exists [] |].
  destruct (Hok x) as [y ->]; [set_solver |].
  destruct IH as (ys & -> & Hlen); [intros z Hz; apply Hok; set_solver |].
  exists (y :: ys). split; [done | simpl; by rewrite Hlen].
Qed.

Lemma index_ok {A : Type} (l : list A) (i : Z) :
  0 <= i < Z.of_nat (length l) -> is_Ok (Py.index l i).
Proof.
  intros [H0 H1]. unfold Py.index.
  rewrite (proj2 (Z.leb_le 0 i) H0), (proj2 (Z.ltb_lt _ _) H1). simpl.
  destruct (lookup_lt_is_Some_2 l (Z.to_nat i)) as [x ->]; [lia |]. by exists x.
Qed.

(** ** The orchestrator's lookup *)

Lemma query_step_missing (pc : list string) (ranking_dict : gmap string (list Doc))
    (Ks : list Z) (rd : gmap Z (list Z)) (qid : string) (gold : list string) :
  ranking_dict !! qid = None ->
  query_step pc ranking_dict Ks rd (qid, gold) = Raise (KeyError qid).
Proof. intros H. unfold query_step, query_hits. by rewrite H. Qed.

(** C8: when the searcher's result omits the id of a query of the batch,
    the lookup of that id raises [KeyError]: the batch evaluation raises
    and returns no recall (the query is never scored as zero hits), and
    the exception is the [KeyError] of that id as soon as the queries
    before it evaluate. *)
Theorem missing_query_id_raises `{Retriever} (pc : list string) (batch : Batch)
    (Ks : list Z) (qid : string) (gold : list string) :
  (qid, gold) ∈ Py.zip (question_id batch) (answers batch) ->
  (forall k, Py.max_list Ks = Ok k -> batch_ranking batch k !! qid = None) ->
  (forall k rd, Py.max_list Ks = Ok k ->
     query_step pc (batch_ranking batch k) Ks rd (qid, gold) = Raise (KeyError qid))
  /\ (exists e, encode_and_search_batch pc batch Ks = Raise e)
  /\ (forall k before rest rd,
        Py.max_list Ks = Ok k ->
        Py.zip (question_id batch) (answers batch) = before ++ (qid, gold) :: rest ->
        for_each (query_step pc (batch_ranking batch k) Ks) before ∅ = Ok rd ->
        encode_and_search_batch pc batch Ks = Raise (KeyError qid)).
Proof.
  intros Hin Hmiss. split; [| split].
  - intros k rd Hk. by apply query_step_missing, Hmiss.
  - unfold encode_and_search_batch.
    destruct (Py.max_list Ks) as [k | e]; simpl; [| by exists e].
    unfold process_ranking. eapply for_each_raises; [exact Hin |].
    intros rd. exists (KeyError qid). by apply query_step_missing, Hmiss.
  - intros k before rest rd Hk Hzip Hbefore.
    unfold encode_and_search_batch. rewrite Hk. simpl.
    unfold process_ranking. rewrite Hzip, for_each_app, Hbefore.
    unfold mbind, result_bind. cbn [for_each].
    by rewrite query_step_missing by by apply Hmiss.
Qed.

Lemma missing_query_id_raises_witness :
  @encode_and_search_batch (table_retriever paris_ranking) paris_corpus two_batch [1; 5]
  = Raise (KeyError "q2").
Proof.
  refine (proj2 (proj2 (@missing_query_id_raises (table_retriever paris_ranking)
            paris_corpus two_batch [1; 5] "q2"%string ["sleep"%string] _ _))
            5 [("q1"%string, ["paris"%string])] [] _ _ _ _).
  - vm_compute. set_solver.
  - intros k _. unfold batch_ranking. simpl. rewrite lookup_fmap. reflexivity.
  - reflexivity.
  - reflexivity.
  - vm_compute. reflexivity.
Defined.

(** ** Cutoffs and the corpus size *)

(** C9, as stated, fails: with a corpus of five passages and the cutoffs
    1 and 50, the sample is composed, the batch is evaluated and Recall@50
    is computed from the five passages returned. *)
Lemma cutoff_beyond_corpus_is_evaluated :
  (exists K, K ∈ [1; 50] /\ Z.of_nat (length paris_corpus) < K)
  /\ is_Ok (prepare_inputs sample0 9)
  /\ exists rd,
       @encode_and_search_batch (table_retriever paris_ranking) paris_corpus paris_batch [1; 50]
       = Ok rd
       /\ rd !! 1 = Some [0] /\ rd !! 50 = Some [1].
Proof.
  split; [| split].
  - exists 50. split; [set_solver | vm_compute; reflexivity].
  - eexists. vm_compute. reflexivity.
  - eexists. split; [vm_compute; reflexivity |]. split; vm_compute; reflexivity.
Qed.

Lemma query_step_ok (pc : list string) (ranking_dict : gmap string (list Doc))
    (Ks : list Z) (rd : gmap Z (list Z)) (qid : string) (gold : list string)
    (docs : list Doc) :
  ranking_dict !! qid = Some docs -> docs ≠ [] ->
  (forall d, d ∈ docs -> 0 <= pid d < Z.of_nat (length pc)) ->
  (forall K, K ∈ Ks -> 0 < K) ->
  is_Ok (query_step pc ranking_dict Ks rd (qid, gold)).
Proof.
  intros Hdocs Hne Hvalid HKs. unfold query_step, query_hits. rewrite Hdocs. simpl.
  destruct (map_result_ok (Py.index pc) (map pid docs)) as (texts & -> & Hlen).
  { intros i Hi. apply list_elem_of_In, in_map_iff in Hi as (d & <- & Hd).
    apply index_ok, Hvalid. by apply list_elem_of_In. }
  simpl. apply for_each_ok. intros K rd' HK.
  destruct (np_max_nonempty (Py.slice_to (hit_list gold texts) K)) as (r & Hr & _).
  { apply slice_to_nonempty; [| by apply HKs].
    intros Hnil. apply (f_equal length) in Hnil.
    rewrite length_hit_list, Hlen, length_map in Hnil. by destruct docs. }
  unfold recall_at. rewrite Hr. simpl. by eexists.
Qed.

(** C9, amended: no cutoff is checked against the corpus size.  Whenever
    the cutoffs are positive and the searcher returns, for every query of
    the batch, a non-empty ranking of passage ids of the corpus, the batch
    is evaluated without error, also when a cutoff exceeds the corpus
    size. *)
Theorem cutoffs_unchecked `{Retriever} (pc : list string) (batch : Batch) (Ks : list Z) :
  Ks ≠ [] ->
  (forall K, K ∈ Ks -> 0 < K) ->
  (forall k qid gold,
     Py.max_list Ks = Ok k ->
     (qid, gold) ∈ Py.zip (question_id batch) (answers batch) ->
     exists docs, batch_ranking batch k !! qid = Some docs /\ docs ≠ []
       /\ forall d, d ∈ docs -> 0 <= pid d < Z.of_nat (length pc)) ->
  is_Ok (encode_and_search_batch pc batch Ks).
Proof.
  intros HKs Hpos Hrank. unfold encode_and_search_batch.
  assert (Hmax : exists k, Py.max_list Ks = Ok k).
  { destruct Ks; [done | by eexists]. }
  destruct Hmax as [k Hk]. rewrite Hk. simpl.
  unfold process_ranking. apply for_each_ok. intros [qid gold] rd Hin.
  destruct (Hrank k qid gold Hk Hin) as (docs & Hdocs & Hne & Hvalid).
  by eapply query_step_ok.
Qed.

Lemma cutoffs_unchecked_witness :
  is_Ok (@encode_and_search_batch (table_retriever paris_ranking) paris_corpus paris_batch [1; 50]).
Proof.
  apply (@cutoffs_unchecked (table_retriever paris_ranking)).
  - discriminate.
  - intros K HK. apply elem_of_cons in HK as [-> | HK]; [lia |].
    apply list_elem_of_singleton in HK as ->. lia.
  - intros k qid gold [= <-] Hin. apply list_elem_of_singleton in Hin as [= -> ->].
    exists [doc 0; doc 1; doc 2; doc 3; doc 4].
    split; [vm_compute; reflexivity |]. split; [discriminate |].
    intros d Hd.
    repeat (apply elem_of_cons in Hd as [-> | Hd]; [vm_compute; split; congruence |]).
    by apply elem_of_nil in Hd.
Defined.

(** ** Attribute selection *)

Lemma suitable_loop (l : list (string * Q)) (acc : list string) :
  fold_left suitable_step l acc
  = acc ++ take (Z.to_nat attribute_max - length acc)%nat
             (map fst (List.filter (fun p => Qltb attribute_thres (snd p)) l)).
Proof.
  revert acc. induction l as [| [a sc] l IH]; intros acc.
  - simpl. by rewrite take_nil, app_nil_r.
  - cbn [fold_left List.filter]. rewrite IH. unfold suitable_step. cbn [snd].
    destruct (Qltb attribute_thres sc) eqn:Esc; [| done].
    destruct (Z.of_nat (length acc) <? attribute_max) eqn:Elen; cbn [andb map fst].
    + apply Z.ltb_lt in Elen. rewrite length_app. cbn [length].
      replace (Z.to_nat attribute_max - length acc)%nat
        with (S (Z.to_nat attribute_max - (length acc + 1)))%nat by lia.
      cbn [take]. by rewrite <- app_assoc.
    + apply Z.ltb_ge in Elen.
      replace (Z.to_nat attribute_max - length acc)%nat with 0%nat by lia.
      done.
Qed.

Lemma suitable_attributes_spec (obj : Obj) :
  suitable_attributes obj = Spec.select_attributes (attributes obj) (attribute_scores obj).
Proof.
  unfold suitable_attributes, Spec.select_attributes. by rewrite suitable_loop.
Qed.

Lemma object_step_spec (vs : list string) (obj : Obj) :
  object_step vs obj = vs ++ Spec.object_words obj.
Proof.
  unfold object_step, Spec.object_words. rewrite suitable_attributes_spec.
  change (0 <? attribute_max) with true. cbn iota.
  by rewrite <- !app_assoc.
Qed.

(** C4: the attributes an object contributes to the vision segment are
    those whose score exceeds [attribute_thres = 0.05], in their original
    order, cut to the first [attribute_max = 3]; they are followed by the
    class name and the separator.  For the attributes red, tall, old, blue
    with scores 0.9, 0.01, 0.2, 0.5 the selection is red, old, blue. *)
Theorem attribute_selection (obj : Obj) (vs : list string) :
  attribute_max = 3 /\ (attribute_thres == 0.05)%Q
  /\ suitable_attributes obj
     = take 3 (map fst (List.filter (fun p => Qltb 0.05 (snd p))
                                    (Py.zip (attributes obj) (attribute_scores obj))))
  /\ object_step vs obj = vs ++ suitable_attributes obj ++ [obj_class obj; "<SOV>"%string]
  /\ suitable_attributes
       {| obj_class := "car"; attributes := ["red"; "tall"; "old"; "blue"]%string;
          attribute_scores := [0.9; 0.01; 0.2; 0.5]%Q |}
     = ["red"; "old"; "blue"]%string.
Proof.
  split; [reflexivity |]. split; [reflexivity |]. split; [apply suitable_attributes_spec |].
  split; [| reflexivity].
  rewrite object_step_spec. unfold Spec.object_words. by rewrite suitable_attributes_spec.
Qed.

(** ** OCR descriptions *)

Lemma filter_and {A : Type} (p q : A -> bool) (l : list A) :
  List.filter p (List.filter q l) = List.filter (fun y => q y && p y) l.
Proof.
  induction l as [| x l IH]; [done |]. simpl.
  destruct (q x); simpl; [destruct (p x) |]; by rewrite IH.
Qed.

Lemma filter_all {A : Type} (p : A -> bool) (l : list A) :
  (forall x, p x = true) -> List.filter p l = l.
Proof.
  intros Hp. induction l as [| x l IH]; [done |]. simpl. by rewrite Hp, IH.
Qed.

Lemma unique_first_filter (p : string -> bool) (l : list string) :
  Spec.unique_first (List.filter p l) = List.filter p (Spec.unique_first l).
Proof.
  induction l as [| x l IH]; [done |]. cbn [List.filter Spec.unique_first].
  destruct (p x) eqn:Ex.
  - cbn [Spec.unique_first]. rewrite IH, !filter_and. f_equal.
    apply List.filter_ext. intros y. apply andb_comm.
  - rewrite IH, filter_and. apply List.filter_ext. intros y.
    destruct (String.eqb x y) eqn:Exy; [| done].
    apply String.eqb_eq in Exy as <-. by rewrite Ex.
Qed.

Lemma mem_snoc (y d : string) (acc : list string) :
  mem y (acc ++ [d]) = mem y acc || String.eqb d y.
Proof.
  unfold mem. rewrite existsb_app. simpl.
  by rewrite orb_false_r, (String.eqb_sym y d).
Qed.

Lemma ocr_loop (anns : list Annotation) (acc : list string) :
  fold_left ocr_step anns acc
  = acc ++ Spec.unique_first
             (List.filter (fun d => negb (mem d acc)) (map Spec.normalise anns)).
Proof.
  revert acc. induction anns as [| a anns IH]; intros acc.
  - simpl. by rewrite app_nil_r.
  - cbn [fold_left map List.filter]. rewrite IH. unfold ocr_step.
    fold (Spec.normalise a).
    destruct (mem (Spec.normalise a) acc) eqn:Emem; cbn [negb]; [done |].
    cbn [Spec.unique_first]. rewrite <- app_assoc. cbn [app]. do 2 f_equal.
    rewrite <- unique_first_filter, filter_and. f_equal.
    apply List.filter_ext. intros y. by rewrite mem_snoc, negb_orb.
Qed.

Lemma filtered_descriptions_spec (anns : list Annotation) :
  filtered_descriptions anns = Spec.unique_first (map Spec.normalise anns).
Proof.
  unfold filtered_descriptions. rewrite ocr_loop. simpl. by rewrite filter_all.
Qed.

Lemma elem_of_unique_first (x : string) (l : list string) :
  x ∈ Spec.unique_first l <-> x ∈ l.
Proof.
  induction l as [| y l IH]; [done |]. cbn [Spec.unique_first].
  rewrite !elem_of_cons, <- IH, !list_elem_of_In, filter_In, negb_true_iff.
  destruct (String.eqb_spec y x) as [-> | Hne]; [tauto |].
  split; [tauto |]. intros [-> | H]; [done | tauto].
Qed.


(** ** The text sequence *)

Lemma append_assoc (a b c : string) : (a +:+ b) +:+ c = a +:+ (b +:+ c).
Proof.
  induction a as [| x a IH]; [done |]. by rewrite !append_cons, IH.
Qed.

Lemma objects_loop (objs : list Obj) (vs : list string) :
  fold_left object_step objs vs = vs ++ concat (map Spec.object_words objs).
Proof.
  revert vs. induction objs as [| o objs IH]; intros vs; simpl.
  - by rewrite app_nil_r.
  - by rewrite IH, object_step_spec, <- app_assoc.
Qed.

Lemma vision_sentences_spec (sample : Sample) :
  vision_sentences sample = ["<BOV>"%string] ++ Spec.vision_words sample ++ ["<EOV>"%string].
Proof.
  unfold vision_sentences, Spec.vision_words.
  change (0 <? ocr) with true. cbn iota.
  by rewrite objects_loop, filtered_descriptions_spec, <- !app_assoc.
Qed.




(** ** The crop list *)

Lemma index_last {A : Type} (l : list A) (x : A) :
  last l = Some x -> Py.index l (-1) = Ok x.
Proof.
  intros Hlast. unfold Py.index.
  assert (Hlen : (0 < length l)%nat) by (destruct l; [done | simpl; lia]).
  change (0 <=? -1) with false. cbn [andb].
  rewrite (proj2 (Z.leb_le (- Z.of_nat (length l)) (-1))) by lia.
  change (-1 <? 0) with true. cbn [andb].
  replace (Z.to_nat (Z.of_nat (length l) + -1)) with (pred (length l)) by lia.
  by rewrite <- last_lookup, Hlast.
Qed.

Lemma pad_ROIs_spec (rois : list string) (num_ROIs : Z) :
  rois ≠ [] -> 0 <= num_ROIs ->
  exists regions,
    pad_ROIs rois num_ROIs = Ok regions
    /\ Z.of_nat (length regions) = num_ROIs
    /\ (num_ROIs <= Z.of_nat (length rois) -> regions = take (Z.to_nat num_ROIs) rois)
    /\ (Z.of_nat (length rois) <= num_ROIs ->
        exists last_roi,
          last rois = Some last_roi
          /\ regions = rois ++ replicate (Z.to_nat num_ROIs - length rois) last_roi).
Proof.
  intros Hne Hn. unfold pad_ROIs.
  destruct (last rois) as [last_roi |] eqn:Hlast;
    [| apply last_None in Hlast; done].
  destruct (Z.of_nat (length rois) <? num_ROIs) eqn:Hlt.
  - apply Z.ltb_lt in Hlt. rewrite (index_last rois last_roi Hlast). simpl.
    unfold Py.repeat. rewrite slice_to_nonneg by lia.
    replace (Z.to_nat (num_ROIs - Z.of_nat (length rois)))
      with (Z.to_nat num_ROIs - length rois)%nat by lia.
    rewrite take_ge by (rewrite length_app, length_replicate; lia).
    eexists. split; [reflexivity |].
    split; [rewrite length_app, length_replicate; lia |].
    split; [lia |]. intros _. by exists last_roi.
  - apply Z.ltb_ge in Hlt. simpl. rewrite slice_to_nonneg by lia.
    eexists. split; [reflexivity |].
    split; [rewrite length_take; lia |].
    split; [done |]. intros Hle. exists last_roi. split; [done |].
    replace (Z.to_nat num_ROIs - length rois)%nat with 0%nat by lia.
    simpl. rewrite app_nil_r. apply take_ge. lia.
Qed.

Lemma pad_ROIs_subseteq (rois regions : list string) (num_ROIs : Z) :
  pad_ROIs rois num_ROIs = Ok regions -> regions ⊆ rois.
Proof.
  unfold pad_ROIs, Py.slice_to.
  destruct (Z.of_nat (length rois) <? num_ROIs).
  - destruct (Py.index rois (-1)) as [last_roi |] eqn:Hidx; [| done]. simpl.
    assert (Hin : last_roi ∈ rois).
    { unfold Py.index in Hidx.
      repeat match type of Hidx with
             | (if ?c then _ else _) = _ => destruct c; [| try done]
             | of_option _ (?l !! ?i) = _ =>
                 destruct (l !! i) eqn:E; [apply list_elem_of_lookup_2 in E | done]
             end; simpl in Hidx; congruence. }
    intros [= <-] r Hr.
    assert (Hr' : r ∈ rois ++ Py.repeat last_roi (num_ROIs - Z.of_nat (length rois))).
    { destruct (0 <=? num_ROIs); eapply subseteq_take; exact Hr. }
    apply elem_of_app in Hr' as [Hr' | Hr']; [done |].
    by apply elem_of_replicate_inv in Hr' as ->.
  - simpl. intros [= <-].
    destruct (0 <=? num_ROIs); apply subseteq_take.
Qed.

Lemma crops_exist `{Platform} (rois : list string) :
  (forall r, r ∈ rois -> is_Ok (crop_of_ROI r)) ->
  exists crops, Forall2 (fun r c => crop_of_ROI r = Ok c) rois crops.
Proof.
  induction rois as [| r rois IH]; intros Hok; [by exists [] |].
  destruct (Hok r) as [c Hc]; [set_solver |].
  destruct IH as [crops Hcrops]; [intros r' Hr'; apply Hok; set_solver |].
  exists (c :: crops). by constructor.
Qed.

Lemma crops_loop `{Platform} (rois : list string) (crops acc : list Image) :
  Forall2 (fun r c => crop_of_ROI r = Ok c) rois crops ->
  for_each (fun imgs ROI => c ← crop_of_ROI ROI; Ok (imgs ++ [c])) rois acc
  = Ok (acc ++ crops).
Proof.
  intros HF. revert acc. induction HF as [| r c rois crops Hc _ IH]; intros acc; simpl.
  - by rewrite app_nil_r.
  - rewrite Hc. simpl. by rewrite IH, <- app_assoc.
Qed.

(** C1: for a sample with at least one region descriptor, an image that
    opens and descriptors that parse, composing with [num_ROIs >= 0] gives
    a crop list of [num_ROIs + 1] images: the primary image, then the crops
    of the first [num_ROIs] descriptors when there are that many, of the
    descriptors followed by copies of the last one when there are fewer. *)
Theorem crop_list_length `{Platform} (sample : Sample) (num_ROIs : Z) (primary : Image) :
  ROIs sample ≠ [] -> 0 <= num_ROIs ->
  Image_open (img_path sample) = Some primary ->
  (forall r, r ∈ ROIs sample -> is_Ok (crop_of_ROI r)) ->
  exists regions crops,
    compose_crops sample num_ROIs = Ok (primary :: crops)
    /\ Z.of_nat (length (primary :: crops)) = num_ROIs + 1
    /\ Forall2 (fun r c => crop_of_ROI r = Ok c) regions crops
    /\ (exists sample', prepare_inputs sample num_ROIs = Ok sample'
                        /\ ROIs sample' = regions)
    /\ (num_ROIs <= Z.of_nat (length (ROIs sample)) ->
        regions = take (Z.to_nat num_ROIs) (ROIs sample))
    /\ (Z.of_nat (length (ROIs sample)) <= num_ROIs ->
        exists last_roi,
          last (ROIs sample) = Some last_roi
          /\ regions = ROIs sample
                       ++ replicate (Z.to_nat num_ROIs - length (ROIs sample)) last_roi).
Proof.
  intros Hne Hn Hopen Hparse.
  destruct (pad_ROIs_spec (ROIs sample) num_ROIs Hne Hn) as (regions & Hpad & Hlen & Htake & Hrep).
  destruct (crops_exist regions) as [crops Hcrops].
  { intros r Hr. apply Hparse. eapply pad_ROIs_subseteq; eauto. }
  exists regions, crops.
  assert (Hprep : exists sample', prepare_inputs sample num_ROIs = Ok sample'
                    /\ ROIs sample' = regions /\ img_path sample' = img_path sample).
  { unfold prepare_inputs. rewrite Hpad. simpl. eexists. split; [reflexivity | done]. }
  destruct Hprep as (sample' & Hprep & Hrois & Hpath).
  split.
  { unfold compose_crops. rewrite Hprep. simpl.
    unfold all_images. rewrite Hpath, Hopen, Hrois. simpl.
    by rewrite (crops_loop regions crops [primary] Hcrops). }
  split.
  { simpl. apply Forall2_length in Hcrops. lia. }
  split; [done |]. split; [by exists sample' |]. by split.
Qed.

Lemma crop_list_length_witness :
  exists crops,
    @compose_crops sym_platform sample0 9
    = Ok ({| src := "img/1.jpg"; region := None |} :: crops)
    /\ Z.of_nat (length ({| src := "img/1.jpg"; region := None |} :: crops)) = 9 + 1.
Proof.
  destruct (@crop_list_length sym_platform sample0 9 {| src := "img/1.jpg"; region := None |})
    as (regions & crops & Hc & Hl & _).
  - discriminate.
  - lia.
  - reflexivity.
  - intros r Hr.
    repeat (apply elem_of_cons in Hr as [-> | Hr]; [eexists; vm_compute; reflexivity |]).
    by apply elem_of_nil in Hr.
  - exists crops. by split.
Defined.

(** ** Sample runs *)

Example split_descriptor :
  Str.split "|||" "a/b.jpg|||cat_1.0_2.0_3.0_4.0" = ["a/b.jpg"; "cat_1.0_2.0_3.0_4.0"]%string
  /\ Str.split "_" "cat_1.0_2.0_3.0_4.0" = ["cat"; "1.0"; "2.0"; "3.0"; "4.0"]%string
  /\ Str.split "|||" "a|||" = ["a"%string; EmptyString].
Proof. repeat split; reflexivity. Qed.

(** A class name with an underscore gives six fields: the descriptor is
    rejected. *)
Example descriptor_with_underscore :
  @crop_of_ROI sym_platform "img/1.jpg|||traffic_light_1_2_3_4" = Raise ValueError.
Proof. vm_compute. reflexivity. Qed.

Example strip_lower :
  Str.lower (Str.strip " Paris  ") = "paris"%string
  /\ Str.contains "paris" (Str.lower "The capital is Paris, France.") = true.
Proof. split; reflexivity. Qed.

(** Three descriptors padded to nine: ten images, the last seven are the
    crop of the third descriptor. *)
Example three_ROIs_padded :
  exists primary c1 c2 c3,
    @compose_crops sym_platform sample0 9 = Ok (primary :: c1 :: c2 :: replicate 7 c3).
Proof. do 4 eexists. vm_compute. reflexivity. Qed.

(** Three descriptors cut to two. *)
Example three_ROIs_truncated :
  exists sample', prepare_inputs sample0 2 = Ok sample'
    /\ ROIs sample' = take 2 (ROIs sample0).
Proof. eexists. split; vm_compute; reflexivity. Qed.

(** No descriptor at all: padding has no last element to repeat. *)
Example no_ROI_raises :
  pad_ROIs [] 9 = Raise IndexError.
Proof. reflexivity. Qed.

(** * Further properties of the example *)

(** ** Padding and truncation of the region descriptors *)

Lemma pad_ROIs_exact (rois : list string) (n : Z) :
  Z.of_nat (length rois) = n -> pad_ROIs rois n = Ok rois.
Proof.
  intros Hlen. unfold pad_ROIs.
  rewrite (proj2 (Z.ltb_ge _ _)) by lia. simpl.
  by rewrite slice_to_all by lia.
Qed.

Lemma pad_ROIs_empty (n : Z) :
  pad_ROIs [] n = if 0 <? n then Raise IndexError else Ok [].
Proof.
  unfold pad_ROIs. change (Z.of_nat (length (@nil string))) with 0.
  destruct (0 <? n) eqn:E; [reflexivity |].
  simpl. unfold Py.slice_to. by destruct (0 <=? n); rewrite take_nil.
Qed.

(** [prepare_inputs] fails in one case only: no region descriptor to
    repeat while some are asked for; the exception is [IndexError]. *)
Theorem prepare_inputs_failure (sample : Sample) (num_ROIs : Z) :
  (prepare_inputs sample num_ROIs = Raise IndexError
   <-> ROIs sample = [] /\ 0 < num_ROIs)
  /\ (is_Ok (prepare_inputs sample num_ROIs)
      <-> ROIs sample ≠ [] \/ num_ROIs <= 0).
Proof.
  unfold prepare_inputs.
  destruct (ROIs sample) as [| r rois] eqn:Erois.
  - rewrite pad_ROIs_empty. destruct (0 <? num_ROIs) eqn:E.
    + apply Z.ltb_lt in E. simpl. split; [done |].
      split; [intros [? [=]] | intros [? | ?]; [done | lia]].
    + apply Z.ltb_ge in E. simpl. split; [split; [done | lia] |].
      split; [by right | by eexists].
  - destruct (Z_lt_le_dec num_ROIs 0) as [Hneg | Hpos].
    + unfold pad_ROIs. rewrite (proj2 (Z.ltb_ge _ _)) by (simpl length; lia). simpl.
      split; [split; [done | intros [[=] _]] |]. split; [by left | by eexists].
    + destruct (pad_ROIs_spec (r :: rois) num_ROIs) as (regions & -> & _); [done | lia |].
      simpl. split; [split; [done | intros [[=] _]] |]. split; [by left | by eexists].
Qed.

(** Composing a composed sample again, with the same [num_ROIs >= 0],
    changes nothing. *)
Theorem prepare_inputs_idempotent (sample sample' : Sample) (num_ROIs : Z) :
  0 <= num_ROIs ->
  prepare_inputs sample num_ROIs = Ok sample' ->
  prepare_inputs sample' num_ROIs = Ok sample'.
Proof.
  intros Hn Hprep. unfold prepare_inputs in Hprep.
  destruct (pad_ROIs (ROIs sample) num_ROIs) as [rois' | e] eqn:Hpad; [| done].
  simpl in Hprep. injection Hprep as <-.
  assert (Hlen : Z.of_nat (length rois') = num_ROIs).
  { destruct (ROIs sample) as [| r rois] eqn:Erois.
    - rewrite pad_ROIs_empty in Hpad. destruct (0 <? num_ROIs) eqn:E; [done |].
      apply Z.ltb_ge in E. injection Hpad as <-. simpl. lia.
    - destruct (pad_ROIs_spec (r :: rois) num_ROIs) as (regions & Hreg & Hl & _); [done | lia |].
      congruence. }
  unfold prepare_inputs. cbn [ROIs]. rewrite (pad_ROIs_exact rois' num_ROIs Hlen).
  reflexivity.
Qed.

Lemma prepare_inputs_idempotent_witness :
  exists sample', prepare_inputs sample0 9 = Ok sample'
    /\ prepare_inputs sample' 9 = Ok sample'.
Proof.
  eexists. split; [vm_compute; reflexivity |].
  apply (prepare_inputs_idempotent sample0); [lia | vm_compute; reflexivity].
Defined.

(** A negative [num_ROIs] never pads and never raises: the slice
    [ROIs[:num_ROIs]] drops that many descriptors from the end. *)
Theorem prepare_inputs_negative (sample : Sample) (num_ROIs : Z) :
  num_ROIs < 0 ->
  exists sample',
    prepare_inputs sample num_ROIs = Ok sample'
    /\ ROIs sample' = take (length (ROIs sample) - Z.to_nat (- num_ROIs)) (ROIs sample)
    /\ (length (ROIs sample') < length (ROIs sample) \/ ROIs sample = [])%nat.
Proof.
  intros Hneg. unfold prepare_inputs, pad_ROIs.
  rewrite (proj2 (Z.ltb_ge _ _)) by lia. simpl.
  eexists. split; [reflexivity |]. cbn [ROIs]. unfold Py.slice_to.
  rewrite (proj2 (Z.leb_gt _ _)) by lia.
  replace (Z.to_nat (Z.of_nat (length (ROIs sample)) + num_ROIs))
    with (length (ROIs sample) - Z.to_nat (- num_ROIs))%nat by lia.
  split; [done |]. rewrite length_take.
  destruct (ROIs sample); [by right | left; simpl; lia].
Qed.

Lemma prepare_inputs_negative_witness :
  exists sample', prepare_inputs sample0 (-1) = Ok sample'
    /\ ROIs sample' = take 2 (ROIs sample0).
Proof.
  destruct (prepare_inputs_negative sample0 (-1)) as (s' & H1 & H2 & _); [lia |].
  exists s'. split; [exact H1 | exact H2].
Defined.

(** ** More on the enlargement of small crops *)

(** A box with only one side under 5 pixels is returned as it is: its
    short side stays short. *)
Theorem sanitize_one_short_side (b : Box) (size : Z * Z) :
  ((Spec.width b < 5 /\ 5 <= Spec.height b) \/ (5 <= Spec.width b /\ Spec.height b < 5))%Q ->
  sanitize b size = b
  /\ (Spec.width (sanitize b size) < 5 \/ Spec.height (sanitize b size) < 5)%Q.
Proof.
  intros H.
  assert (Hsame : sanitize b size = b) by (apply sanitize_large; destruct H; lra).
  rewrite Hsame. split; [done |]. destruct H; [left | right]; lra.
Qed.

Lemma sanitize_one_short_side_witness :
  let b := {| xmin := 10; ymin := 10; xmax := 11; ymax := 40 |} in
  sanitize b (50, 50)%Z = b
  /\ (Spec.width (sanitize b (50, 50)%Z) < 5 \/ Spec.height (sanitize b (50, 50)%Z) < 5)%Q.
Proof.
  intros b. apply (sanitize_one_short_side b (50, 50)%Z). left. Qconcrete.
Defined.

(** One axis of an enlarged box, on doubles. *)
Lemma enlarged_side (lo hi : Q) (size : Z) :
  0 <= size <= 2 ^ 31 -> (lo <= hi)%Q ->
  (5 - pow2 (-22) <= fmin (inject_Z size) (round64 (hi + 2.5)) - fmax 0 (round64 (lo - 2.5))
   \/ fmax 0 (round64 (lo - 2.5)) == 0
   \/ fmin (inject_Z size) (round64 (hi + 2.5)) == inject_Z size)%Q.
Proof.
  intros Hsize Hle.
  destruct (fmax_spec 0 (round64 (lo - 2.5))) as [[Hlo ->] | [_ ->]];
    [| right; left; reflexivity].
  destruct (fmin_spec (inject_Z size) (round64 (hi + 2.5))) as [[Hhi ->] | [_ ->]];
    [| right; right; reflexivity].
  left.
  assert (Hpos : (0 < lo - 2.5)%Q).
  { apply Qnot_le_lt. intros Hneg. apply round64_mono in Hneg.
    change (round64 0) with 0%Q in Hneg. lra. }
  assert (Hin : (hi + 2.5 < inject_Z size)%Q).
  { apply Qnot_le_lt. intros Hout. apply round64_mono in Hout.
    rewrite round64_Z in Hout by lia. lra. }
  assert (Htop : (inject_Z size <= pow2 31)%Q).
  { rewrite pow2_Z by lia. rewrite <- Zle_Qle. lia. }
  destruct (round64_error (lo - 2.5) 31) as [_ Elo]; [lra | lra | lia |].
  destruct (round64_error (hi + 2.5) 31) as [Ehi _]; [lra | lra | lia |].
  assert (E : (pow2 (-22) == 2 * pow2 (31 - 54))%Q) by (vm_compute; reflexivity).
  rewrite E. lra.
Qed.

(** On doubles, in an image of at most [2^31] pixels a side, an enlarged
    box has on each axis a side of at least [5 - 2^-22] pixels unless the
    enlargement ran into the image border on that axis (into 0 on the low
    side or into the image size on the high side). *)
Theorem sanitize_grows_or_hits_border (x0 y0 x1 y1 : Q) (size : Z * Z) :
  0 <= fst size <= 2 ^ 31 -> 0 <= snd size <= 2 ^ 31 ->
  (x0 <= x1)%Q -> (y0 <= y1)%Q ->
  (round64 (x1 - x0) < 5)%Q -> (round64 (y1 - y0) < 5)%Q ->
  exists a0 b0 a1 b1 : Q,
    sanitize_in (rounded round64) (x0, y0, x1, y1) size = (a0, b0, a1, b1)
    /\ (5 - pow2 (-22) <= a1 - a0 \/ a0 == 0 \/ a1 == inject_Z (fst size))%Q
    /\ (5 - pow2 (-22) <= b1 - b0 \/ b0 == 0 \/ b1 == inject_Z (snd size))%Q.
Proof.
  intros HW HH Hx Hy Hw Hh.
  rewrite (sanitize_in_small round64 x0 y0 x1 y1 size Hw Hh).
  do 4 eexists. split; [reflexivity |].
  split; apply enlarged_side; done.
Qed.

Lemma sanitize_grows_or_hits_border_witness :
  let x := (6192449487634433 # 1125899906842624)%Q in
  exists a0 b0 a1 b1 : Q,
    sanitize_in (rounded round64) (x, 1, x, 2)%Q (100, 100) = (a0, b0, a1, b1)
    /\ (5 - pow2 (-22) <= a1 - a0 \/ a0 == 0 \/ a1 == inject_Z 100)%Q
    /\ (5 - pow2 (-22) <= b1 - b0 \/ b0 == 0 \/ b1 == inject_Z 100)%Q.
Proof.
  intros x. apply (sanitize_grows_or_hits_border x 1 x 2 (100, 100));
    first [cbn [fst snd]; lia | vm_compute; first [reflexivity | discriminate]].
Defined.

(** For a box that lies within its image, the returned crop contains the
    box: the enlargement never cuts into the region. *)
Theorem sanitize_contains_box (b : Box) (size : Z * Z) :
  Spec.valid_box b size ->
  (xmin (sanitize b size) <= xmin b /\ ymin (sanitize b size) <= ymin b
   /\ xmax b <= xmax (sanitize b size) /\ ymax b <= ymax (sanitize b size))%Q.
Proof.
  unfold Spec.valid_box. intros (Hx0 & Hx1 & Hy0 & Hy1).
  destruct (Qlt_le_dec (Spec.width b) 5) as [Hw | Hw];
    [destruct (Qlt_le_dec (Spec.height b) 5) as [Hh | Hh] |];
    [| rewrite sanitize_large by auto; repeat split; lra ..].
  rewrite (sanitize_small b size Hw Hh). cbn [xmin ymin xmax ymax].
  destruct (fmax_spec 0 (xmin b - 2.5)) as [[? ->] | [? ->]],
           (fmax_spec 0 (ymin b - 2.5)) as [[? ->] | [? ->]],
           (fmin_spec (inject_Z (fst size)) (xmax b + 2.5)) as [[? ->] | [? ->]],
           (fmin_spec (inject_Z (snd size)) (ymax b + 2.5)) as [[? ->] | [? ->]];
    repeat split; lra.
Qed.

Lemma sanitize_contains_box_witness :
  let b := {| xmin := 1; ymin := 48; xmax := 3; ymax := 50 |} in
  (xmin (sanitize b (50, 50)%Z) <= xmin b /\ ymin (sanitize b (50, 50)%Z) <= ymin b
   /\ xmax b <= xmax (sanitize b (50, 50)%Z) /\ ymax b <= ymax (sanitize b (50, 50)%Z))%Q.
Proof.
  intros b. apply (sanitize_contains_box b (50, 50)%Z). Qconcrete.
Defined.

(** ** Splitting and the descriptor format *)





















(** A small region beyond the right and lower borders of its image: the
    enlargement clamps [xmax] and [ymax] to the image size and leaves
    [xmin] and [ymin] beyond it, and the crop of the inverted box raises. *)
Example crop_of_inverted_box :
  sanitize {| xmin := 650; ymin := 490; xmax := 652; ymax := 492 |} (640, 480)%Z
  = {| xmin := 650 - 2.5; ymin := 490 - 2.5; xmax := inject_Z 640; ymax := inject_Z 480 |}
  /\ @crop_of_ROI sym_platform "img/1.jpg|||x_650_490_652_492" = Raise ValueError.
Proof. split; reflexivity. Qed.



(** ** The crop lists of a batch *)

Lemma crops_loop_length `{Platform} (rois : list string) (acc out : list Image) :
  for_each (fun imgs ROI => c ← crop_of_ROI ROI; Ok (imgs ++ [c])) rois acc = Ok out ->
  length out = (length acc + length rois)%nat.
Proof.
  revert acc. induction rois as [| r rois IH]; intros acc; simpl.
  - intros [= <-]. lia.
  - destruct (crop_of_ROI r) as [c | e]; [| done]. simpl.
    intros Hout. apply IH in Hout. rewrite length_app in Hout. simpl in Hout. lia.
Qed.

Lemma map_result_ok_iff {A B : Type} (f : A -> result B) (l : list A) :
  is_Ok (map_result f l) <-> forall x, x ∈ l -> is_Ok (f x).
Proof.
  split.
  - induction l as [| y l IH]; intros Hok x Hx; [by apply elem_of_nil in Hx |].
    simpl in Hok. destruct (f y) as [b | e] eqn:Ey; [| by destruct Hok].
    simpl in Hok. destruct (map_result f l) as [bs | e] eqn:El; [| by destruct Hok].
    apply elem_of_cons in Hx as [-> | Hx]; [rewrite Ey; by eexists |].
    apply IH; [by eexists | done].
  - intros Hok. destruct (map_result_ok f l Hok) as (ys & -> & _). by eexists.
Qed.

Lemma map_result_raise {A B : Type} (f : A -> result B) (l : list A) (e : exn) :
  map_result f l = Raise e -> exists x, x ∈ l /\ f x = Raise e.
Proof.
  induction l as [| y l IH]; [done |]. simpl.
  destruct (f y) as [b | e'] eqn:Ey; simpl.
  - destruct (map_result f l) as [bs | e'']; [done |]. simpl. intros [= ->].
    destruct IH as (x & Hx & Hfx); [done |]. exists x. split; [set_solver | done].
  - intros [= ->]. exists y. split; [set_solver | done].
Qed.

Lemma map_result_Forall2 {A B : Type} (f : A -> result B) (l : list A) (ys : list B) :
  map_result f l = Ok ys -> Forall2 (fun x y => f x = Ok y) l ys.
Proof.
  revert ys. induction l as [| x l IH]; intros ys; simpl.
  - intros [= <-]. constructor.
  - destruct (f x) as [y | e] eqn:Ex; [| done]. simpl.
    destruct (map_result f l) as [ys' | e]; [| done]. simpl.
    intros [= <-]. constructor; [done | by apply IH].
Qed.

Lemma map_result_of_Forall2 {A B : Type} (f : A -> result B) (l : list A) (ys : list B) :
  Forall2 (fun x y => f x = Ok y) l ys -> map_result f l = Ok ys.
Proof.
  induction 1 as [| x y l ys Hxy _ IH]; [done |]. simpl. by rewrite Hxy, IH.
Qed.

Lemma all_images_length `{Platform} (path : string) (rois : list string) (stack : list Image) :
  all_images path rois = Ok stack -> length stack = S (length rois).
Proof.
  unfold all_images. destruct (Image_open path) as [image |]; [| done]. simpl.
  intros Hall. apply crops_loop_length in Hall. simpl in Hall. lia.
Qed.

(** An encoded batch, taken apart into crop lists and their encodings,
    and put together again. *)
Lemma encodings_split `{P : Platform} `{!Tensors P} (examples : list (string * list string))
    (encoded : list Pixels) :
  Forall2 (fun example pixels =>
             (let '(path, rois) := example in
              images ← all_images path rois; image_processor images) = Ok pixels)
          examples encoded ->
  exists stacks,
    Forall2 (fun '(path, rois) stack => all_images path rois = Ok stack) examples stacks
    /\ Forall2 (fun stack pixels => image_processor stack = Ok pixels) stacks encoded.
Proof.
  induction 1 as [| [path rois] pixels examples encoded Hone _ (stacks & Hall & Henc)].
  - exists []. split; constructor.
  - destruct (all_images path rois) as [stack | e] eqn:Hst; [| done]. simpl in Hone.
    exists (stack :: stacks). split; constructor; done.
Qed.

Lemma encodings_join `{P : Platform} `{!Tensors P} (examples : list (string * list string))
    (stacks : list (list Image)) (encoded : list Pixels) :
  Forall2 (fun '(path, rois) stack => all_images path rois = Ok stack) examples stacks ->
  Forall2 (fun stack pixels => image_processor stack = Ok pixels) stacks encoded ->
  map_result (fun '(path, rois) => images ← all_images path rois; image_processor images)
             examples
  = Ok encoded.
Proof.
  intros Hall. revert encoded.
  induction Hall as [| [path rois] stack examples stacks Hst _ IH]; intros encoded Henc.
  - by inversion Henc.
  - inversion Henc as [| ? pixels ? encoded' Hone Hrest]; subst.
    simpl. rewrite Hst. simpl. rewrite Hone. simpl. by rewrite (IH encoded').
Qed.

(** Composition is all or nothing: the crop list of an example stops at
    the first descriptor that fails, with that descriptor's exception, and
    an image that does not open fails the example whatever its
    descriptors. *)
Theorem all_images_fail_fast `{Platform} (path : string) (good rest : list string)
    (bad : string) (primary : Image) (crops : list Image) (e : exn) :
  Forall2 (fun r c => crop_of_ROI r = Ok c) good crops ->
  crop_of_ROI bad = Raise e ->
  (Image_open path = Some primary -> all_images path (good ++ bad :: rest) = Raise e)
  /\ (Image_open path = None -> all_images path (good ++ bad :: rest) = Raise OSError).
Proof.
  intros Hgood Hbad. unfold all_images. split; intros ->; simpl; [| done].
  rewrite for_each_app, (crops_loop good crops [primary] Hgood).
  unfold mbind, result_bind. cbn [for_each]. by rewrite Hbad.
Qed.

Lemma all_images_fail_fast_witness :
  @all_images sym_platform "img/1.jpg"
    ["img/1.jpg|||car_10_20_110_220"; "img/1.jpg|||traffic_light_1_2_3_4";
     "img/1.jpg|||dog_1_1_50_50"]%string
  = Raise ValueError.
Proof.
  refine (proj1 (@all_images_fail_fast sym_platform "img/1.jpg"
                   ["img/1.jpg|||car_10_20_110_220"%string]
                   ["img/1.jpg|||dog_1_1_50_50"%string]
                   "img/1.jpg|||traffic_light_1_2_3_4"
                   {| src := "img/1.jpg"; region := None |}
                   [ {| src := "img/1.jpg";
                        region := Some {| xmin := 10; ymin := 20; xmax := 110; ymax := 220 |} |} ]
                   ValueError _ _) _).
  - constructor; [vm_compute; reflexivity | constructor].
  - vm_compute. reflexivity.
  - reflexivity.
Defined.

(** The pixel values of a batch are returned exactly when every example
    (as far as both columns reach) has a crop list, of the primary image
    and one crop per descriptor, the image processor encodes each crop
    list, and the encodings stack; an example whose crop list or whose
    encoding raises makes the batch raise. *)
Theorem tokenize_images_shape `{P : Platform} `{!Tensors P} (paths : list string)
    (roiss : list (list string)) :
  (forall pixel_values,
     tokenize_images paths roiss = Ok pixel_values
     <-> exists stacks encoded,
           Forall2 (fun example stack => all_images example.1 example.2 = Ok stack
                                         /\ length stack = S (length example.2))
                   (Py.zip paths roiss) stacks
           /\ Forall2 (fun stack pixels => image_processor stack = Ok pixels) stacks encoded
           /\ torch_stack encoded = Ok pixel_values)
  /\ (forall path rois,
        (path, rois) ∈ Py.zip paths roiss ->
        ~ is_Ok (images ← all_images path rois; image_processor images) ->
        ~ is_Ok (tokenize_images paths roiss)).
Proof.
  unfold tokenize_images. split.
  - intros pixel_values. split.
    + destruct (map_result _ (Py.zip paths roiss)) as [encoded | e] eqn:Hmap; [| done].
      simpl. intros Hstack.
      apply map_result_Forall2 in Hmap.
      destruct (encodings_split _ _ Hmap) as (stacks & Hall & Henc).
      exists stacks, encoded. split; [| done].
      eapply Forall2_impl; [exact Hall |].
      intros [path rois] stack Hst. split; [done |]. simpl.
      by apply all_images_length in Hst.
    + intros (stacks & encoded & Hall & Henc & Hstack).
      rewrite (encodings_join (Py.zip paths roiss) stacks encoded); [done | | done].
      eapply Forall2_impl; [exact Hall |]. by intros [path rois] stack [Hst _].
  - intros path rois Hin Hbad [pixel_values Hok].
    destruct (map_result _ (Py.zip paths roiss)) as [encoded | e] eqn:Hmap; [| done].
    apply Hbad.
    assert (Hall : is_Ok (map_result (fun '(path, rois) => images ← all_images path rois;
                                                           image_processor images)
                                     (Py.zip paths roiss))) by (rewrite Hmap; by eexists).
    rewrite map_result_ok_iff in Hall. exact (Hall (path, rois) Hin).
Qed.

Lemma tokenize_images_shape_witness :
  exists stacks encoded,
    Forall2 (fun example stack => @all_images sym_platform example.1 example.2 = Ok stack
                                  /\ length stack = S (length example.2))
            (Py.zip ["img/1.jpg"%string] [ROIs sample0]) stacks
    /\ Forall2 (fun stack pixels => @image_processor _ sym_tensors stack = Ok pixels)
               stacks encoded.
Proof.
  destruct (proj1 (proj1 (@tokenize_images_shape sym_platform sym_tensors
                            ["img/1.jpg"%string] [ROIs sample0])
                         (match @tokenize_images sym_platform sym_tensors
                                  ["img/1.jpg"%string] [ROIs sample0] with
                          | Ok pixel_values => pixel_values
                          | Raise _ => []
                          end)))
    as (stacks & encoded & Hall & Henc & _).
  - reflexivity.
  - by exists stacks, encoded.
Defined.

(** Two examples with crop lists of different lengths: each is encoded,
    the stack raises. *)
Example ragged_batch_raises :
  is_Ok (@all_images sym_platform "img/1.jpg" [])
  /\ is_Ok (@all_images sym_platform "img/1.jpg" ["img/1.jpg|||dog_1_1_50_50"%string])
  /\ @tokenize_images sym_platform sym_tensors ["img/1.jpg"; "img/1.jpg"]%string
       [[]; ["img/1.jpg|||dog_1_1_50_50"%string]]
     = Raise RuntimeError.
Proof. repeat split; by eexists. Qed.

(** ** Hits and cutoffs at the edges *)

Lemma contains_empty (s : string) : Str.contains EmptyString s = true.
Proof. by destruct s. Qed.

(** A gold answer that is empty or blank makes every passage a hit; a
    query without gold answers has no hit at all. *)
Theorem hit_blank_answer (gold : list string) (answer : string) :
  answer ∈ gold -> Str.strip answer = EmptyString ->
  (forall text, hit gold text = 1)
  /\ (forall texts K, texts ≠ [] -> 1 <= K -> recall_at (hit_list gold texts) K = Ok 1)
  /\ (forall text, hit [] text = 0).
Proof.
  intros Hin Hblank.
  assert (Hhit : forall text, hit gold text = 1).
  { intros text. apply hit_spec. exists answer. split; [done |].
    rewrite Hblank. apply contains_spec, contains_empty. }
  split; [done |]. split; [| done].
  intros texts K Hne HK. rewrite recall_at_spec by done. f_equal.
  apply recall_spec_one. destruct texts as [| t texts]; [done |].
  exists t. split; [| by apply hit_spec].
  destruct (Z.to_nat K) eqn:E; [lia | set_solver].
Qed.

Lemma hit_blank_answer_witness :
  hit ["paris"; "  "]%string "Cats sleep." = 1.
Proof.
  apply (hit_blank_answer ["paris"; "  "]%string "  ").
  - apply elem_of_cons. right. by apply list_elem_of_singleton.
  - reflexivity.
Defined.

Lemma take_cons_nil_iff {A : Type} (k : nat) (x : A) (l : list A) :
  take k (x :: l) = [] <-> k = 0%nat.
Proof. by destruct k. Qed.

Lemma slice_to_nil_iff {A : Type} (l : list A) (K : Z) :
  Py.slice_to l K = [] <-> l = [] \/ K = 0 \/ K <= - Z.of_nat (length l).
Proof.
  unfold Py.slice_to. destruct l as [| x l].
  - split; [by left |]. intros _. destruct (0 <=? K); apply take_nil.
  - destruct (0 <=? K) eqn:E; [apply Z.leb_le in E | apply Z.leb_gt in E];
      rewrite take_cons_nil_iff; cbn [length]; split.
    + intros H. right. left. lia.
    + intros [? | [? | ?]]; [done | lia | lia].
    + intros H. right. right. lia.
    + intros [? | [? | ?]]; [done | lia | lia].
Qed.

(** Recall@K is undefined exactly on an empty window: no retrieved
    passage, [K = 0], or a negative [K] that drops every entry; the
    exception is then [ValueError].  A negative [K] above [-len] is
    accepted and scores all but the last [-K] passages. *)
Theorem recall_at_failure (hits : list Z) (K : Z) :
  (recall_at hits K = Raise ValueError
   <-> hits = [] \/ K = 0 \/ K <= - Z.of_nat (length hits))
  /\ (is_Ok (recall_at hits K)
      <-> hits ≠ [] /\ K ≠ 0 /\ - Z.of_nat (length hits) < K)
  /\ (K < 0 ->
      recall_at hits K = np_max (take (length hits - Z.to_nat (- K)) hits)).
Proof.
  unfold recall_at. pose proof (slice_to_nil_iff hits K) as Hnil.
  destruct (Py.slice_to hits K) as [| h w] eqn:Hs.
  - split; [| split].
    + split; [intros _; by apply Hnil | done].
    + split; [intros [? [=]] |]. intros (H1 & H2 & H3).
      destruct (proj1 Hnil eq_refl) as [? | [? | ?]]; [done | done | lia].
    + intros HK. rewrite <- Hs. unfold Py.slice_to.
      rewrite (proj2 (Z.leb_gt _ _)) by lia. do 2 f_equal. lia.
  - split; [| split].
    + split; [done |]. intros H. by apply Hnil in H.
    + split; [| intros _; by eexists]. intros _.
      assert (Hnot : ~ (hits = [] \/ K = 0 \/ K <= - Z.of_nat (length hits))).
      { intros H. by apply Hnil in H. }
      split; [intros ->; apply Hnot; by left |].
      split; [intros ->; apply Hnot; right; by left |].
      apply Z.lt_nge. intros Hle. apply Hnot. right. by right.
    + intros HK. rewrite <- Hs. unfold Py.slice_to.
      rewrite (proj2 (Z.leb_gt _ _)) by lia. do 2 f_equal. lia.
Qed.

Lemma recall_at_failure_witness :
  recall_at [0; 1; 0] (-1) = np_max (take (length [0; 1; 0] - Z.to_nat (- -1)) [0; 1; 0]).
Proof.
  apply (proj2 (proj2 (recall_at_failure [0; 1; 0] (-1)))). lia.
Defined.

(** ** The recall record of a batch *)

Lemma column_append_recall (rd : gmap Z (list Z)) (K K' r : Z) :
  column (append_recall rd K' r) K
  = if decide (K' = K) then column rd K ++ [r] else column rd K.
Proof.
  unfold column, append_recall. rewrite lookup_insert.
  destruct (decide (K' = K)) as [-> | Hne]; done.
Qed.

Lemma recall_loop_columns (hits : list Z) (Ks : list Z) (rd0 rd1 : gmap Z (list Z)) (K : Z) :
  for_each (fun rd K => recall ← recall_at hits K; Ok (append_recall rd K recall)) Ks rd0
  = Ok rd1 ->
  column rd1 K
  = column rd0 K ++ match recall_at hits K with
                    | Ok r => replicate (count_occ Z.eq_dec Ks K) r
                    | Raise _ => []
                    end.
Proof.
  revert rd0. induction Ks as [| K' Ks IH]; intros rd0; simpl.
  - intros [= <-]. destruct (recall_at hits K); by rewrite app_nil_r.
  - destruct (recall_at hits K') as [r' | e] eqn:EK'; [| done]. simpl.
    intros Hloop. rewrite (IH _ Hloop), column_append_recall.
    destruct (Z.eq_dec K' K) as [-> | Hne].
    + rewrite EK', decide_True by done. by rewrite <- app_assoc.
    + by rewrite decide_False by done.
Qed.

Lemma recall_loop_keys (hits : list Z) (Ks : list Z) (rd0 rd1 : gmap Z (list Z)) (K : Z) :
  for_each (fun rd K => recall ← recall_at hits K; Ok (append_recall rd K recall)) Ks rd0
  = Ok rd1 ->
  is_Some (rd1 !! K) <-> is_Some (rd0 !! K) \/ K ∈ Ks.
Proof.
  revert rd0. induction Ks as [| K' Ks IH]; intros rd0; simpl.
  - intros [= <-]. split; [by left |]. intros [? | HK]; [done | by apply elem_of_nil in HK].
  - destruct (recall_at hits K') as [r' | e]; [| done]. simpl.
    intros Hloop. rewrite (IH _ Hloop). unfold append_recall. rewrite lookup_insert.
    destruct (decide (K' = K)) as [-> | Hne].
    + split; [intros _; right; apply elem_of_cons; by left | intros _; left; by eexists].
    + rewrite elem_of_cons. split; [tauto |]. intros [? | [? | ?]]; [tauto | congruence | tauto].
Qed.

Lemma recall_loop_ok_inv (hits : list Z) (Ks : list Z) (rd0 rd1 : gmap Z (list Z)) (K : Z) :
  for_each (fun rd K => recall ← recall_at hits K; Ok (append_recall rd K recall)) Ks rd0
  = Ok rd1 ->
  K ∈ Ks -> is_Ok (recall_at hits K).
Proof.
  revert rd0. induction Ks as [| K' Ks IH]; intros rd0 Hloop HK; [by apply elem_of_nil in HK |].
  simpl in Hloop. destruct (recall_at hits K') as [r' | e] eqn:EK'; [| done].
  simpl in Hloop. apply elem_of_cons in HK as [-> | HK]; [rewrite EK'; by eexists |].
  by eapply IH.
Qed.

Lemma query_step_inv (pc : list string) (rk : gmap string (list Doc)) (Ks : list Z)
    (rd rd' : gmap Z (list Z)) (q : string * list string) :
  query_step pc rk Ks rd q = Ok rd' ->
  exists hits,
    query_hits pc rk q.1 q.2 = Ok hits
    /\ for_each (fun rd K => recall ← recall_at hits K; Ok (append_recall rd K recall)) Ks rd
       = Ok rd'.
Proof.
  destruct q as [qid gold]. unfold query_step. cbn [fst snd].
  destruct (query_hits pc rk qid gold) as [hits | e]; [| done]. simpl.
  intros Hloop. by exists hits.
Qed.

Lemma query_step_column (pc : list string) (rk : gmap string (list Doc)) (Ks : list Z)
    (rd rd' : gmap Z (list Z)) (q : string * list string) (K : Z) :
  query_step pc rk Ks rd q = Ok rd' ->
  column rd' K = column rd K ++ recall_block pc rk Ks K q.
Proof.
  intros Hstep. destruct (query_step_inv _ _ _ _ _ _ Hstep) as (hits & Hhits & Hloop).
  rewrite (recall_loop_columns hits Ks rd rd' K Hloop).
  unfold recall_block, query_recall. by rewrite Hhits.
Qed.

Lemma process_columns (pc : list string) (rk : gmap string (list Doc)) (Ks : list Z)
    (qs : list (string * list string)) (rd0 rd : gmap Z (list Z)) (K : Z) :
  for_each (query_step pc rk Ks) qs rd0 = Ok rd ->
  column rd K = column rd0 K ++ concat (map (recall_block pc rk Ks K) qs).
Proof.
  revert rd0. induction qs as [| q qs IH]; intros rd0; simpl.
  - intros [= <-]. by rewrite app_nil_r.
  - destruct (query_step pc rk Ks rd0 q) as [rd1 | e] eqn:Hstep; [| done]. simpl.
    intros Hrest. rewrite (IH _ Hrest), (query_step_column _ _ _ _ _ _ K Hstep).
    by rewrite <- app_assoc.
Qed.

Lemma process_keys (pc : list string) (rk : gmap string (list Doc)) (Ks : list Z)
    (qs : list (string * list string)) (rd0 rd : gmap Z (list Z)) (K : Z) :
  for_each (query_step pc rk Ks) qs rd0 = Ok rd ->
  is_Some (rd !! K) <-> is_Some (rd0 !! K) \/ (K ∈ Ks /\ qs ≠ []).
Proof.
  revert rd0. induction qs as [| q qs IH]; intros rd0; simpl.
  - intros [= <-]. split; [by left | intros [? | [_ ?]]; done].
  - destruct (query_step pc rk Ks rd0 q) as [rd1 | e] eqn:Hstep; [| done]. simpl.
    intros Hrest. rewrite (IH _ Hrest).
    destruct (query_step_inv _ _ _ _ _ _ Hstep) as (hits & _ & Hloop).
    rewrite (recall_loop_keys hits Ks rd0 rd1 K Hloop).
    split.
    + intros [[? | ?] | [? _]]; [by left | by right | by right].
    + intros [? | [? _]]; [by do 2 left | left; by right].
Qed.

Lemma process_queries_ok (pc : list string) (rk : gmap string (list Doc)) (Ks : list Z)
    (qs : list (string * list string)) (rd0 rd : gmap Z (list Z)) (K : Z) :
  for_each (query_step pc rk Ks) qs rd0 = Ok rd ->
  K ∈ Ks -> Forall (fun q => is_Ok (query_recall pc rk K q)) qs.
Proof.
  revert rd0. induction qs as [| q qs IH]; intros rd0 Hloop HK; [constructor |].
  simpl in Hloop.
  destruct (query_step pc rk Ks rd0 q) as [rd1 | e] eqn:Hstep; [| done].
  simpl in Hloop. constructor; [| by eapply IH].
  destruct (query_step_inv _ _ _ _ _ _ Hstep) as (hits & Hhits & Hinner).
  unfold query_recall. rewrite Hhits. simpl. by eapply recall_loop_ok_inv.
Qed.

Lemma blocks_in_order (pc : list string) (rk : gmap string (list Doc)) (Ks : list Z)
    (K : Z) (qs : list (string * list string)) :
  count_occ Z.eq_dec Ks K = 1%nat ->
  Forall (fun q => is_Ok (query_recall pc rk K q)) qs ->
  Forall2 (fun q r => query_recall pc rk K q = Ok r) qs
          (concat (map (recall_block pc rk Ks K) qs)).
Proof.
  intros Hone Hok. induction Hok as [| q qs [r Hr] _ IH]; [constructor |].
  simpl. unfold recall_block at 1. rewrite Hr, Hone. simpl. by constructor.
Qed.

Lemma blocks_length (pc : list string) (rk : gmap string (list Doc)) (Ks : list Z)
    (K : Z) (qs : list (string * list string)) :
  (K ∈ Ks -> Forall (fun q => is_Ok (query_recall pc rk K q)) qs) ->
  length (concat (map (recall_block pc rk Ks K) qs))
  = (count_occ Z.eq_dec Ks K * length qs)%nat.
Proof.
  intros Hok. destruct (count_occ Z.eq_dec Ks K) as [| c] eqn:Ec.
  - clear Hok. simpl. induction qs as [| q qs IH]; [done |].
    simpl. rewrite length_app, IH. unfold recall_block. rewrite Ec.
    by destruct (query_recall pc rk K q).
  - assert (HK : K ∈ Ks).
    { apply list_elem_of_In, (count_occ_In Z.eq_dec). lia. }
    specialize (Hok HK).
    induction Hok as [| q qs [r Hr] _ IH]; [simpl; lia |].
    simpl. rewrite length_app, IH. unfold recall_block. rewrite Hr, Ec.
    rewrite length_replicate. lia.
Qed.

(** The record a batch evaluation returns, for cutoffs without
    repetition: under every requested cutoff the recalls of the queries,
    one per query and in the order of the batch; no other key. *)
Theorem recall_record_in_batch_order (pc : list string) (rk : gmap string (list Doc))
    (qids : list string) (golds : list (list string)) (Ks : list Z)
    (rd : gmap Z (list Z)) :
  NoDup Ks ->
  process_ranking pc rk qids golds Ks = Ok rd ->
  (forall K, K ∈ Ks ->
     Forall2 (fun q r => query_recall pc rk K q = Ok r) (Py.zip qids golds) (column rd K)
     /\ (Py.zip qids golds ≠ [] -> rd !! K = Some (column rd K)))
  /\ (forall K, K ∉ Ks -> rd !! K = None).
Proof.
  intros Hnodup Hproc. unfold process_ranking in Hproc. split.
  - intros K HK. split.
    + rewrite (process_columns _ _ _ _ _ _ K Hproc). unfold column at 1.
      rewrite lookup_empty. simpl.
      apply blocks_in_order; [| by eapply process_queries_ok].
      apply NoDup_count_occ'; [by apply NoDup_ListNoDup | by apply list_elem_of_In].
    + intros Hne.
      destruct (proj2 (process_keys _ _ _ _ _ _ K Hproc)) as [col Hcol]; [by right |].
      unfold column. by rewrite Hcol.
  - intros K HK. apply eq_None_not_Some. intros Hsome.
    apply (process_keys _ _ _ _ _ _ K Hproc) in Hsome as [Hsome | [? _]]; [| done].
    rewrite lookup_empty in Hsome. by destruct Hsome.
Qed.

Lemma recall_record_in_batch_order_witness :
  exists rd,
    process_ranking paris_corpus paris_ranking ["q1"%string] [["paris"%string]] [1; 5] = Ok rd
    /\ Forall2 (fun q r => query_recall paris_corpus paris_ranking 5 q = Ok r)
               (Py.zip ["q1"%string] [["paris"%string]]) (column rd 5).
Proof.
  eexists. split; [vm_compute; reflexivity |].
  apply (recall_record_in_batch_order paris_corpus paris_ranking
           ["q1"%string] [["paris"%string]] [1; 5]).
  - apply NoDup_cons. split; [| apply NoDup_singleton].
    intros H. by apply list_elem_of_singleton in H.
  - vm_compute. reflexivity.
  - apply elem_of_cons. right. by apply list_elem_of_singleton.
Defined.

(** A cutoff given twice is scored twice for every query: the list under
    [Recall@K] holds as many entries per query as [K] has occurrences in
    [Ks], so that it is longer than the batch as soon as [K] is repeated. *)
Theorem recall_column_length (pc : list string) (rk : gmap string (list Doc))
    (qids : list string) (golds : list (list string)) (Ks : list Z)
    (rd : gmap Z (list Z)) (K : Z) :
  process_ranking pc rk qids golds Ks = Ok rd ->
  length (column rd K)
  = (count_occ Z.eq_dec Ks K * length (Py.zip qids golds))%nat.
Proof.
  intros Hproc. unfold process_ranking in Hproc.
  rewrite (process_columns _ _ _ _ _ _ K Hproc). unfold column at 1.
  rewrite lookup_empty. simpl.
  apply blocks_length. intros HK. by eapply process_queries_ok.
Qed.

Lemma recall_column_length_witness :
  exists rd,
    process_ranking paris_corpus paris_ranking ["q1"%string] [["paris"%string]] [5; 5] = Ok rd
    /\ length (column rd 5) = 2%nat.
Proof.
  eexists. split; [vm_compute; reflexivity |].
  apply (recall_column_length paris_corpus paris_ranking
           ["q1"%string] [["paris"%string]] [5; 5]).
  vm_compute. reflexivity.
Defined.

(** ** Passage ids *)

Lemma index_cases {A : Type} (l : list A) (i : Z) :
  (- Z.of_nat (length l) <= i < Z.of_nat (length l) /\ is_Ok (Py.index l i))
  \/ (~ (- Z.of_nat (length l) <= i < Z.of_nat (length l))
      /\ Py.index l i = Raise IndexError).
Proof.
  unfold Py.index.
  destruct (0 <=? i) eqn:E0; [apply Z.leb_le in E0 | apply Z.leb_gt in E0];
    destruct (i <? Z.of_nat (length l)) eqn:E1;
    [apply Z.ltb_lt in E1 | apply Z.ltb_ge in E1 | apply Z.ltb_lt in E1 | apply Z.ltb_ge in E1];
    cbn [andb].
  - left. split; [lia |].
    destruct (lookup_lt_is_Some_2 l (Z.to_nat i)) as [x ->]; [lia |]. by exists x.
  - right. rewrite (proj2 (Z.ltb_ge i 0)) by lia. rewrite andb_false_r. split; [lia | done].
  - rewrite (proj2 (Z.ltb_lt i 0)) by lia. rewrite andb_true_r.
    destruct (- Z.of_nat (length l) <=? i) eqn:E2;
      [apply Z.leb_le in E2 | apply Z.leb_gt in E2].
    + left. split; [lia |].
      destruct (lookup_lt_is_Some_2 l (Z.to_nat (Z.of_nat (length l) + i))) as [x ->]; [lia |].
      by exists x.
    + right. split; [lia | done].
  - lia.
Qed.

Lemma index_ok_iff {A : Type} (l : list A) (i : Z) :
  is_Ok (Py.index l i) <-> - Z.of_nat (length l) <= i < Z.of_nat (length l).
Proof.
  destruct (index_cases l i) as [[Hin Hok] | [Hout Hr]]; [tauto |].
  rewrite Hr. split; [intros [? [=]] | tauto].
Qed.

Lemma index_raise {A : Type} (l : list A) (i : Z) (e : exn) :
  Py.index l i = Raise e -> e = IndexError.
Proof.
  destruct (index_cases l i) as [[_ [x ->]] | [_ ->]]; [done | congruence].
Qed.

Lemma length_map_result {A B : Type} (f : A -> result B) (l : list A) (ys : list B) :
  map_result f l = Ok ys -> length ys = length l.
Proof. intros H. apply map_result_Forall2, Forall2_length in H. lia. Qed.

(** Once the ranking of a query is found, its evaluation can only fail on
    a passage id outside the corpus (ids from [-len] count from the end,
    as Python indexes): the exception is [IndexError], and otherwise the
    hit list has one entry per ranked passage. *)
Theorem query_hits_passage_ids (pc : list string) (rk : gmap string (list Doc))
    (qid : string) (gold : list string) (docs : list Doc) :
  rk !! qid = Some docs ->
  (is_Ok (query_hits pc rk qid gold) <-> forall d, d ∈ docs -> pid_in_range pc (pid d))
  /\ (forall e, query_hits pc rk qid gold = Raise e -> e = IndexError)
  /\ (forall hits, query_hits pc rk qid gold = Ok hits -> length hits = length docs).
Proof.
  intros Hdocs. unfold query_hits, pid_in_range. rewrite Hdocs. simpl.
  split; [| split].
  - split.
    + intros Hok d Hd.
      destruct (map_result (Py.index pc) (map pid docs)) as [texts | e] eqn:Hm;
        [| by destruct Hok].
      apply index_ok_iff. eapply map_result_ok_iff; [rewrite Hm; by eexists |].
      apply list_elem_of_In, in_map, list_elem_of_In, Hd.
    + intros Hall.
      destruct (map_result_ok (Py.index pc) (map pid docs)) as (texts & -> & _);
        [| by eexists].
      intros i Hi. apply list_elem_of_In, in_map_iff in Hi as (d & <- & Hd).
      apply index_ok_iff, Hall. by apply list_elem_of_In.
  - intros e.
    destruct (map_result (Py.index pc) (map pid docs)) as [texts | e'] eqn:Hm; [done |].
    simpl. intros [= ->].
    apply map_result_raise in Hm as (i & _ & Hi). by apply index_raise in Hi.
  - intros hits.
    destruct (map_result (Py.index pc) (map pid docs)) as [texts | e'] eqn:Hm; [| done].
    simpl. intros [= <-].
    rewrite length_hit_list, (length_map_result _ _ _ Hm). apply length_map.
Qed.

Lemma query_hits_passage_ids_witness :
  exists hits,
    query_hits paris_corpus paris_ranking "q1" ["paris"%string] = Ok hits
    /\ length hits = 5%nat.
Proof.
  eexists. split; [vm_compute; reflexivity |].
  apply (proj2 (proj2 (query_hits_passage_ids paris_corpus paris_ranking "q1"
                         ["paris"%string] [doc 0; doc 1; doc 2; doc 3; doc 4] eq_refl))).
  vm_compute. reflexivity.
Defined.

(** ** The queries handed to the searcher *)

Lemma fold_left_snoc {A B : Type} (f : B -> A -> B) (l : list A) (x : A) (b : B) :
  fold_left f (l ++ [x]) b = f (fold_left f l b) x.
Proof. by rewrite fold_left_app. Qed.

Lemma queries_loop (pairs : list (string * string)) (d : gmap string string) (qid : string) :
  fold_left (fun d '(qid, q) => <[qid := q]> d) pairs d !! qid
  = match last (List.filter (fun p => String.eqb p.1 qid) pairs) with
    | Some p => Some p.2
    | None => d !! qid
    end.
Proof.
  induction pairs as [| [k v] pairs IH] using rev_ind; [done |].
  rewrite fold_left_snoc, List.filter_app. cbn [List.filter fst].
  rewrite lookup_insert.
  destruct (String.eqb_spec k qid) as [-> | Hne].
  - rewrite decide_True by done. by rewrite last_snoc.
  - rewrite decide_False by done. by rewrite app_nil_r.
Qed.

(** The dict of queries sent to the searcher maps a question id to the
    question of its last occurrence in the batch: questions under a
    repeated id are merged into one query, and an id that is not in the
    batch is not sent. *)
Theorem custom_quries_last_wins `{Retriever} (batch : Batch) (qid : string) :
  custom_quries batch !! qid
  = snd <$> last (List.filter (fun p => String.eqb p.1 qid)
                              (Py.zip (question_id batch) (batch_question batch))).
Proof.
  unfold custom_quries. rewrite queries_loop, lookup_empty.
  by destruct (last _).
Qed.

(** ** Path prefixes *)





Lemma prefix_loop (prefix : string) (rois acc : list string) :
  fold_left (fun new_ROIs ROI => new_ROIs ++ [path_join prefix ROI]) rois acc
  = acc ++ map (path_join prefix) rois.
Proof. apply (fold_left_snoc_map (path_join prefix)). Qed.



Lemma index_map {A B : Type} (f : A -> B) (l : list A) (i : Z) :
  Py.index (map f l) i
  = match Py.index l i with
    | Ok x => Ok (f x)
    | Raise e => Raise e
    end.
Proof.
  unfold Py.index. rewrite length_map.
  repeat match goal with
         | |- context [if ?c then _ else _] => destruct c
         end; try done;
    change (map f l) with (f <$> l); rewrite list_lookup_fmap;
    by destruct (l !! _).
Qed.

Lemma slice_to_map {A B : Type} (f : A -> B) (l : list A) (K : Z) :
  Py.slice_to (map f l) K = map f (Py.slice_to l K).
Proof.
  unfold Py.slice_to. rewrite length_map. by destruct (0 <=? K); rewrite firstn_map.
Qed.

Lemma pad_ROIs_map (f : string -> string) (rois : list string) (n : Z) :
  pad_ROIs (map f rois) n = (padded ← pad_ROIs rois n; Ok (map f padded)).
Proof.
  unfold pad_ROIs. rewrite length_map.
  destruct (Z.of_nat (length rois) <? n).
  - rewrite index_map. destruct (Py.index rois (-1)) as [last_roi | e]; [| done].
    simpl. f_equal. unfold Py.repeat.
    rewrite <- slice_to_map, map_app. do 2 f_equal.
    change (map f (replicate ?k ?x)) with (f <$> replicate k x).
    by rewrite fmap_replicate.
  - simpl. by rewrite slice_to_map.
Qed.

(** Prefixing the paths and composing commute: padding or cutting the
    descriptors of the prefixed sample gives the prefixed descriptors of
    the composed sample, with the same text sequence and the same
    failure. *)
Theorem prefix_commutes_with_prepare (sample : Sample) (prefix : string) (num_ROIs : Z) :
  prepare_inputs (add_path_prefix_in_img_path sample prefix) num_ROIs
  = (sample' ← prepare_inputs sample num_ROIs;
     Ok (add_path_prefix_in_img_path sample' prefix)).
Proof.
  unfold prepare_inputs, add_path_prefix_in_img_path. cbn [ROIs].
  rewrite prefix_loop. cbn [app]. rewrite pad_ROIs_map.
  destruct (pad_ROIs (ROIs sample) num_ROIs) as [padded | e]; [| done].
  simpl. by rewrite prefix_loop.
Qed.

(** ** Passage markers *)

Lemma lower_app (a b : string) : Str.lower (a +:+ b) = Str.lower a +:+ Str.lower b.
Proof.
  induction a as [| c a IH]; [done |]. rewrite append_cons. simpl.
  by rewrite IH, append_cons.
Qed.

Lemma substring_inside (sub s pre post : string) :
  Spec.substring sub s -> Spec.substring sub (pre +:+ s +:+ post).
Proof.
  intros (p1 & p2 & ->). exists (pre +:+ p1), (p2 +:+ post).
  by rewrite !append_assoc.
Qed.

Lemma substring_left (sub s post : string) :
  Spec.substring sub s -> Spec.substring sub (s +:+ post).
Proof.
  intros (p1 & p2 & ->). exists p1, (p2 +:+ post). by rewrite !append_assoc.
Qed.

Lemma substring_right (sub s pre : string) :
  Spec.substring sub s -> Spec.substring sub (pre +:+ s).
Proof.
  intros (p1 & p2 & ->). exists (pre +:+ p1), p2. by rewrite !append_assoc.
Qed.

(** The passages are searched with their markers around them.  This never
    loses a hit, and it adds hits: a gold answer that occurs (trimmed and
    lowered) in one of the lowered markers is found in every passage. *)
Theorem markers_keep_and_add_hits (gold : list string) (passages : list string)
    (i : nat) (passage : string) :
  passages !! i = Some passage ->
  wrap_passages passages !! i = Some ("<BOK> " +:+ passage +:+ " <EOK>")
  /\ hit gold passage <= hit gold ("<BOK> " +:+ passage +:+ " <EOK>")
  /\ (forall answer,
        answer ∈ gold ->
        Spec.substring (Str.lower (Str.strip answer)) "<bok> "
        \/ Spec.substring (Str.lower (Str.strip answer)) " <eok>" ->
        hit gold ("<BOK> " +:+ passage +:+ " <EOK>") = 1).
Proof.
  intros Hi. split; [| split].
  - unfold wrap_passages. change (map ?f ?l) with (f <$> l).
    by rewrite list_lookup_fmap, Hi.
  - rewrite (hit_is_hitb gold passage).
    destruct (Spec.is_hitb gold passage) eqn:E;
      [| rewrite hit_is_hitb;
         destruct (Spec.is_hitb gold ("<BOK> " +:+ passage +:+ " <EOK>")); lia].
    apply is_hitb_spec in E as (a & Ha & Hsub).
    assert (hit gold ("<BOK> " +:+ passage +:+ " <EOK>") = 1) as ->; [| lia].
    apply hit_spec. exists a. split; [done |].
    rewrite !lower_app. by apply substring_inside.
  - intros a Ha Hmark. apply hit_spec. exists a. split; [done |].
    rewrite !lower_app. destruct Hmark as [Hb | He].
    + by apply substring_left.
    + by apply substring_right, substring_right.
Qed.

Lemma markers_keep_and_add_hits_witness :
  hit ["BOK"%string] ("<BOK> " +:+ "Cats sleep." +:+ " <EOK>") = 1.
Proof.
  refine (proj2 (proj2 (markers_keep_and_add_hits ["BOK"%string] ["Cats sleep."%string]
                          0 "Cats sleep." eq_refl)) "BOK"%string _ _).
  - by apply list_elem_of_singleton.
  - left. exists "<"%string, "> "%string. reflexivity.
Defined.

(** ** Recall over a batch *)

Lemma recall_at_le (hits : list Z) (K1 K2 r1 r2 : Z) :
  0 <= K1 -> K1 <= K2 ->
  recall_at hits K1 = Ok r1 -> recall_at hits K2 = Ok r2 -> r1 <= r2.
Proof.
  unfold recall_at. intros H1 H2 Hr1 Hr2.
  rewrite (slice_to_prefix hits K1 K2) in Hr2 by done.
  eapply np_max_app; eauto.
Qed.

Lemma recall_at_binary (gold texts : list string) (K r : Z) :
  recall_at (hit_list gold texts) K = Ok r -> 0 <= r <= 1.
Proof.
  unfold recall_at. intros Hr.
  destruct (np_max_nonempty (Py.slice_to (hit_list gold texts) K)) as (m & Hm & Hin & _).
  { intros Hnil. by rewrite Hnil in Hr. }
  assert (m = r) as -> by congruence.
  assert (Hin' : r ∈ hit_list gold texts).
  { unfold Py.slice_to in Hin. destruct (0 <=? K); eapply subseteq_take; exact Hin. }
  rewrite hit_list_map in Hin'.
  apply list_elem_of_In, in_map_iff in Hin' as (t & <- & _).
  rewrite hit_is_hitb. destruct (Spec.is_hitb gold t); lia.
Qed.

Lemma query_recall_le (pc : list string) (rk : gmap string (list Doc)) (K1 K2 r1 r2 : Z)
    (q : string * list string) :
  0 <= K1 -> K1 <= K2 ->
  query_recall pc rk K1 q = Ok r1 -> query_recall pc rk K2 q = Ok r2 ->
  0 <= r1 /\ r1 <= r2 /\ r2 <= 1.
Proof.
  unfold query_recall. intros H1 H2.
  destruct (query_hits pc rk q.1 q.2) as [hits | e] eqn:Hh; [| done]. simpl.
  intros Hr1 Hr2. split; [| split].
  - unfold query_hits in Hh. destruct (rk !! q.1); [| done]. simpl in Hh.
    destruct (map_result _ _) as [texts |]; [| done]. injection Hh as <-.
    apply recall_at_binary in Hr1. lia.
  - by eapply recall_at_le.
  - unfold query_hits in Hh. destruct (rk !! q.1); [| done]. simpl in Hh.
    destruct (map_result _ _) as [texts |]; [| done]. injection Hh as <-.
    apply recall_at_binary in Hr2. lia.
Qed.

Lemma columns_le (pc : list string) (rk : gmap string (list Doc)) (K1 K2 : Z)
    (qs : list (string * list string)) (c1 c2 : list Z) :
  0 <= K1 -> K1 <= K2 ->
  Forall2 (fun q r => query_recall pc rk K1 q = Ok r) qs c1 ->
  Forall2 (fun q r => query_recall pc rk K2 q = Ok r) qs c2 ->
  Forall2 (fun r1 r2 => 0 <= r1 /\ r1 <= r2 /\ r2 <= 1) c1 c2.
Proof.
  intros H1 H2 Hc1. revert c2. induction Hc1 as [| q r1 qs c1 Hr1 _ IH]; intros c2 Hc2.
  - inversion Hc2. constructor.
  - inversion Hc2 as [| ? r2 ? c2' Hr2 Hc2' ]; subst. constructor; [| by apply IH].
    by eapply query_recall_le.
Qed.

Lemma sum_bounds (c1 c2 : list Z) :
  Forall2 (fun r1 r2 => 0 <= r1 /\ r1 <= r2 /\ r2 <= 1) c1 c2 ->
  0 <= fold_right Z.add 0 c1
  /\ fold_right Z.add 0 c1 <= fold_right Z.add 0 c2
  /\ fold_right Z.add 0 c2 <= Z.of_nat (length c2)
  /\ length c1 = length c2.
Proof.
  induction 1 as [| r1 r2 c1 c2 (H0 & H1 & H2) _ IH]; [simpl; lia |].
  cbn [fold_right length]. lia.
Qed.

Lemma Qdiv_le_compat (a b n : Z) :
  0 < n -> a <= b -> (inject_Z a / inject_Z n <= inject_Z b / inject_Z n)%Q.
Proof.
  intros Hn Hab. unfold Qdiv. apply Qmult_le_compat_r; [by rewrite <- Zle_Qle |].
  apply Qinv_le_0_compat. change 0%Q with (inject_Z 0). rewrite <- Zle_Qle. lia.
Qed.

Lemma column_in_order (pc : list string) (rk : gmap string (list Doc)) (Ks : list Z)
    (qs : list (string * list string)) (rd : gmap Z (list Z)) (K : Z) :
  NoDup Ks -> K ∈ Ks ->
  for_each (query_step pc rk Ks) qs ∅ = Ok rd ->
  Forall2 (fun q r => query_recall pc rk K q = Ok r) qs (column rd K).
Proof.
  intros Hnodup HK Hproc.
  rewrite (process_columns _ _ _ _ _ _ K Hproc). unfold column at 1.
  rewrite lookup_empty. simpl.
  apply blocks_in_order; [| by eapply process_queries_ok].
  apply NoDup_count_occ'; [by apply NoDup_ListNoDup | by apply list_elem_of_In].
Qed.

Lemma np_mean_nonempty (col : list Z) :
  col ≠ [] ->
  np_mean col
  = Some (Qdiv (inject_Z (fold_right Z.add 0 col)) (inject_Z (Z.of_nat (length col)))).
Proof. by destruct col. Qed.

(** Over a batch, with cutoffs without repetition, the recalls under a
    smaller cutoff are, query by query, at most those under a larger one,
    all of them 0 or 1 at the ends of the range; hence the mean recall
    printed for the smaller cutoff is at most the mean for the larger,
    both between 0 and 1. *)
Theorem batch_recall_monotone (pc : list string) (rk : gmap string (list Doc))
    (qids : list string) (golds : list (list string)) (Ks : list Z)
    (rd : gmap Z (list Z)) (K1 K2 : Z) :
  NoDup Ks -> K1 ∈ Ks -> K2 ∈ Ks -> 0 <= K1 -> K1 <= K2 ->
  process_ranking pc rk qids golds Ks = Ok rd ->
  Forall2 (fun r1 r2 => 0 <= r1 /\ r1 <= r2 /\ r2 <= 1) (column rd K1) (column rd K2)
  /\ (Py.zip qids golds ≠ [] ->
      exists m1 m2,
        np_mean (column rd K1) = Some m1 /\ np_mean (column rd K2) = Some m2
        /\ (0 <= m1 /\ m1 <= m2 /\ m2 <= 1)%Q).
Proof.
  intros Hnodup HK1 HK2 H0 H12 Hproc. unfold process_ranking in Hproc.
  pose proof (column_in_order _ _ _ _ _ K1 Hnodup HK1 Hproc) as Hc1.
  pose proof (column_in_order _ _ _ _ _ K2 Hnodup HK2 Hproc) as Hc2.
  pose proof (columns_le _ _ _ _ _ _ _ H0 H12 Hc1 Hc2) as Hle.
  split; [exact Hle |]. intros Hne.
  destruct (sum_bounds _ _ Hle) as (Hs0 & Hs1 & Hs2 & Hlen).
  assert (Hpos : (0 < length (column rd K2))%nat).
  { apply Forall2_length in Hc2. rewrite <- Hc2.
    destruct (Py.zip qids golds); [done | simpl; lia]. }
  rewrite !np_mean_nonempty by (intros Hnil; rewrite ?Hlen, Hnil in *; simpl in *; lia).
  eexists _, _. split; [reflexivity |]. split; [reflexivity |]. rewrite Hlen.
  split; [| split].
  - apply Qle_shift_div_l; [change 0%Q with (inject_Z 0); rewrite <- Zlt_Qlt; lia |].
    rewrite Qmult_0_l. change 0%Q with (inject_Z 0). rewrite <- Zle_Qle. lia.
  - apply Qdiv_le_compat; lia.
  - apply Qle_shift_div_r; [change 0%Q with (inject_Z 0); rewrite <- Zlt_Qlt; lia |].
    rewrite Qmult_1_l, <- Zle_Qle. lia.
Qed.

Lemma batch_recall_monotone_witness :
  exists rd m1 m2,
    process_ranking paris_corpus paris_ranking ["q1"%string] [["paris"%string]] [1; 5] = Ok rd
    /\ np_mean (column rd 1) = Some m1 /\ np_mean (column rd 5) = Some m2
    /\ (0 <= m1 /\ m1 <= m2 /\ m2 <= 1)%Q.
Proof.
  destruct (batch_recall_monotone paris_corpus paris_ranking ["q1"%string]
              [["paris"%string]] [1; 5]
              (<[5 := [1]]> {[1 := [0]]}) 1 5) as (_ & Hmean).
  - apply NoDup_cons. split; [| apply NoDup_singleton].
    intros H. by apply list_elem_of_singleton in H.
  - apply elem_of_cons. by left.
  - apply elem_of_cons. right. by apply list_elem_of_singleton.
  - lia.
  - lia.
  - vm_compute. reflexivity.
  - destruct Hmean as (m1 & m2 & H1 & H2 & Hb); [discriminate |].
    exists (<[5 := [1]]> {[1 := [0]]}), m1, m2.
    split; [vm_compute; reflexivity |]. split; [exact H1 |]. split; [exact H2 | exact Hb].
Defined.

(** ** The words of the vision segment *)

Lemma zip_filter_sublist (p : string * Q -> bool) (attrs : list string) (scores : list Q) :
  map fst (List.filter p (Py.zip attrs scores)) `sublist_of` attrs.
Proof.
  revert scores. induction attrs as [| a attrs IH]; intros scores; [constructor |].
  destruct scores as [| sc scores]; [apply sublist_nil_l |].
  cbn [Py.zip List.filter]. destruct (p (a, sc)); cbn [map fst].
  - by apply sublist_skip.
  - by apply sublist_cons.
Qed.

Lemma zip_lookup {A B : Type} (a : list A) (b : list B) (x : A) (y : B) :
  (x, y) ∈ Py.zip a b -> exists i, a !! i = Some x /\ b !! i = Some y.
Proof.
  revert b. induction a as [| x' a IH]; intros b Hin; [by apply elem_of_nil in Hin |].
  destruct b as [| y' b]; [by apply elem_of_nil in Hin |].
  cbn [Py.zip] in Hin. apply elem_of_cons in Hin as [[= -> ->] | Hin].
  - by exists 0%nat.
  - destruct (IH b Hin) as (i & Ha & Hb). by exists (S i).
Qed.

(** The attributes an object contributes are at most three, appear in the
    order of its attribute list, and each of them stands at a position
    whose score exists and exceeds the threshold: an attribute without a
    score is never selected. *)
Theorem suitable_attributes_sound (obj : Obj) :
  (length (suitable_attributes obj) <= 3)%nat
  /\ suitable_attributes obj `sublist_of` attributes obj
  /\ forall attribute,
       attribute ∈ suitable_attributes obj ->
       exists i att_score,
         attributes obj !! i = Some attribute
         /\ attribute_scores obj !! i = Some att_score
         /\ (attribute_thres < att_score)%Q.
Proof.
  rewrite suitable_attributes_spec. unfold Spec.select_attributes.
  change (Z.to_nat attribute_max) with 3%nat. split; [| split].
  - rewrite length_take. lia.
  - etrans; [apply sublist_take | apply zip_filter_sublist].
  - intros a Ha. apply subseteq_take in Ha.
    apply list_elem_of_In, in_map_iff in Ha as ([a' sc] & <- & Hin).
    apply filter_In in Hin as [Hin Hsc]. apply list_elem_of_In in Hin.
    destruct (zip_lookup _ _ _ _ Hin) as (i & Hi1 & Hi2).
    exists i, sc. split; [done |]. split; [done |]. by apply Qltb_lt.
Qed.

Lemma suitable_attributes_sound_witness :
  exists i att_score,
    ["red"; "tall"; "old"; "blue"]%string !! i = Some "old"%string
    /\ [0.9; 0.01; 0.2; 0.5]%Q !! i = Some att_score
    /\ (attribute_thres < att_score)%Q.
Proof.
  apply (proj2 (proj2 (suitable_attributes_sound
           {| obj_class := "car"; attributes := ["red"; "tall"; "old"; "blue"]%string;
              attribute_scores := [0.9; 0.01; 0.2; 0.5]%Q |})) "old"%string).
  vm_compute. apply elem_of_cons. right. apply elem_of_cons. by left.
Defined.

Lemma classes_in_words (objs : list Obj) :
  map obj_class objs `sublist_of` concat (map Spec.object_words objs).
Proof.
  induction objs as [| o objs IH]; [constructor |].
  cbn [map concat]. unfold Spec.object_words at 1.
  rewrite <- app_assoc. apply sublist_inserts_l. cbn [app].
  apply sublist_skip. by apply sublist_cons.
Qed.

(** Every detected object puts its class name into the vision segment, in
    the order of the objects and whatever their number: no object is
    dropped, the segment grows by at least two words per object. *)
Theorem every_object_in_vision_segment (sample : Sample) :
  map obj_class (objects sample) `sublist_of` vision_sentences sample
  /\ (2 * length (objects sample) + 2 <= length (vision_sentences sample))%nat.
Proof.
  rewrite vision_sentences_spec. unfold Spec.vision_words. split.
  - apply sublist_inserts_l, sublist_inserts_r, sublist_inserts_r, classes_in_words.
  - rewrite !length_app. cbn [length].
    assert (2 * length (objects sample)
            <= length (concat (map Spec.object_words (objects sample))))%nat; [| lia].
    induction (objects sample) as [| o objs IH]; [simpl; lia |].
    cbn [map concat]. rewrite length_app. unfold Spec.object_words at 1.
    rewrite length_app. cbn [length]. lia.
Qed.

(** ** The OCR words *)

Lemma replace_char_free (a b : ascii) (s : string) :
  Ascii.eqb b a = false -> Fmt.has_char a (Str.replace_char a b s) = false.
Proof.
  intros Hab. induction s as [| c s IH]; [done |].
  cbn [Str.replace_char Fmt.has_char]. rewrite IH, orb_false_r.
  destruct (Ascii.eqb c a) eqn:E; done.
Qed.

Lemma length_unique_first (l : list string) :
  (length (Spec.unique_first l) <= length l)%nat.
Proof.
  induction l as [| x l IH]; [done |]. cbn [Spec.unique_first length].
  pose proof (List.filter_length_le (fun y => negb (String.eqb x y)) (Spec.unique_first l)).
  lia.
Qed.

(** The OCR words of the vision segment hold no line break, are at most as
    many as the annotations, and an annotation whose trimmed text was
    already seen adds nothing. *)
Theorem ocr_words_single_line (anns : list Annotation) :
  Forall (fun d => Fmt.has_char "010" d = false) (filtered_descriptions anns)
  /\ (length (filtered_descriptions anns) <= length anns)%nat
  /\ forall a,
       Spec.normalise a ∈ map Spec.normalise anns ->
       filtered_descriptions (anns ++ [a]) = filtered_descriptions anns.
Proof.
  split; [| split].
  - rewrite filtered_descriptions_spec. apply Forall_forall. intros d Hd.
    apply elem_of_unique_first, list_elem_of_In, in_map_iff in Hd as (a & <- & _).
    by apply replace_char_free.
  - rewrite filtered_descriptions_spec.
    etrans; [apply length_unique_first |]. by rewrite length_map.
  - intros a Ha. unfold filtered_descriptions at 1. rewrite fold_left_snoc.
    fold (filtered_descriptions anns). unfold ocr_step. fold (Spec.normalise a).
    assert (Hmem : mem (Spec.normalise a) (filtered_descriptions anns) = true).
    { unfold mem. apply existsb_exists. exists (Spec.normalise a).
      split; [| apply String.eqb_refl].
      apply list_elem_of_In. rewrite filtered_descriptions_spec.
      by apply elem_of_unique_first. }
    by rewrite Hmem.
Qed.

Lemma ocr_words_single_line_witness :
  filtered_descriptions (img_ocr sample0 ++ [ {| description := "STOP  " |} ])
  = filtered_descriptions (img_ocr sample0).
Proof.
  apply (proj2 (proj2 (ocr_words_single_line (img_ocr sample0)))).
  vm_compute. apply elem_of_cons. by left.
Defined.

(** ** The search depth *)

(** The searcher is asked once, for as many passages as the largest cutoff:
    a cutoff of the list that no other cutoff exceeds.  Without any cutoff
    the batch raises [ValueError] before the search. *)
Theorem search_depth_is_max_cutoff `{Retriever} (pc : list string) (batch : Batch)
    (Ks : list Z) :
  (Ks = [] -> encode_and_search_batch pc batch Ks = Raise ValueError)
  /\ (Ks ≠ [] ->
      exists k,
        k ∈ Ks /\ (forall K, K ∈ Ks -> K <= k)
        /\ encode_and_search_batch pc batch Ks
           = process_ranking pc (batch_ranking batch k)
               (question_id batch) (answers batch) Ks).
Proof.
  split; [by intros -> |]. intros Hne.
  destruct (np_max_nonempty Ks Hne) as (k & Hk & Hin & Hmax).
  exists k. split; [done |]. split; [done |].
  unfold encode_and_search_batch. unfold np_max in Hk. by rewrite Hk.
Qed.

Lemma search_depth_is_max_cutoff_witness :
  exists k,
    k ∈ [5; 20; 10] /\ (forall K, K ∈ [5; 20; 10] -> K <= k)
    /\ @encode_and_search_batch (table_retriever paris_ranking) paris_corpus paris_batch
         [5; 20; 10]
       = process_ranking paris_corpus
           (@batch_ranking (table_retriever paris_ranking) paris_batch k)
           (@question_id (table_retriever paris_ranking) paris_batch)
           (@answers (table_retriever paris_ranking) paris_batch) [5; 20; 10].
Proof.
  apply (proj2 (@search_depth_is_max_cutoff (table_retriever paris_ranking)
                  paris_corpus paris_batch [5; 20; 10])).
  discriminate.
Defined.

(** ** Matching of answers *)

Lemma lower_char_idem (c : ascii) : Str.lower_char (Str.lower_char c) = Str.lower_char c.
Proof. destruct c as [[] [] [] [] [] [] [] []]; reflexivity. Qed.

Lemma is_space_lower_char (c : ascii) : Str.is_space (Str.lower_char c) = Str.is_space c.
Proof. destruct c as [[] [] [] [] [] [] [] []]; reflexivity. Qed.

Lemma lower_idem (s : string) : Str.lower (Str.lower s) = Str.lower s.
Proof. induction s as [| c s IH]; [done |]. simpl. by rewrite lower_char_idem, IH. Qed.

Lemma lstrip_lower (s : string) : Str.lstrip (Str.lower s) = Str.lower (Str.lstrip s).
Proof.
  induction s as [| c s IH]; [done |]. simpl. rewrite is_space_lower_char.
  by destruct (Str.is_space c).
Qed.

Lemma rstrip_lower (s : string) : Str.rstrip (Str.lower s) = Str.lower (Str.rstrip s).
Proof.
  induction s as [| c s IH]; [done |]. simpl. rewrite IH, is_space_lower_char.
  destruct (Str.rstrip s); simpl; [by destruct (Str.is_space c) | done].
Qed.

Lemma strip_lower_comm (s : string) : Str.strip (Str.lower s) = Str.lower (Str.strip s).
Proof. unfold Str.strip. by rewrite lstrip_lower, rstrip_lower. Qed.

Lemma is_hitb_mono (gold gold' : list string) (text : string) :
  gold ⊆ gold' -> Spec.is_hitb gold text = true -> Spec.is_hitb gold' text = true.
Proof.
  intros Hsub. rewrite !is_hitb_spec. intros (a & Ha & Hs). exists a. split; [by apply Hsub | done].
Qed.

(** Matching ignores letter case on both sides and only grows with the
    gold answers: lowering the answers or the passage changes no hit, and
    a passage that is a hit stays one when answers are added. *)
Theorem hit_case_and_answers (gold : list string) (text : string) :
  hit (map Str.lower gold) text = hit gold text
  /\ hit gold (Str.lower text) = hit gold text
  /\ forall gold', gold ⊆ gold' -> hit gold text <= hit gold' text.
Proof.
  split; [| split].
  - rewrite !hit_is_hitb.
    assert (Spec.is_hitb (map Str.lower gold) text = Spec.is_hitb gold text) as ->; [| done].
    unfold Spec.is_hitb. induction gold as [| a gold IH]; [done |].
    cbn [map existsb]. by rewrite IH, strip_lower_comm, lower_idem.
  - rewrite !hit_is_hitb. unfold Spec.is_hitb. by rewrite lower_idem.
  - intros gold' Hsub. rewrite !hit_is_hitb.
    destruct (Spec.is_hitb gold text) eqn:E.
    + by rewrite (is_hitb_mono gold gold' text Hsub E).
    + destruct (Spec.is_hitb gold' text); lia.
Qed.

Lemma hit_case_and_answers_witness :
  hit ["PARIS"%string] "The capital is Paris, France."
  <= hit ["PARIS"; "london"]%string "The capital is Paris, France.".
Proof.
  apply (proj2 (proj2 (hit_case_and_answers ["PARIS"%string]
                         "The capital is Paris, France."))).
  intros a Ha. apply list_elem_of_singleton in Ha as ->. apply elem_of_cons. by left.
Defined.
